(** * linkedin-job-search: the startup configuration, fetch-and-cache and
      page rendering of [server.ts], embedded and verified.

    The embedding follows [src/server.ts] function by function:
    - JavaScript strings are [string]; the string methods the server calls
      ([replace] with a one-character global pattern, [startsWith],
      [substring], [split], [join], [includes]) are the functions of
      module [JS];
    - the objects [args], [hardcodedDefaultOptions] and the merged query
      options are finite maps from property name to value
      ([gmap string string]); [args[key] = value] is an insert and the
      spread [{...defaults, ...args}] a union in which [args] wins;
    - console output, the collaborator call, the browser launch, [res.send]
      and [process.exit] are recorded as a trace of [Effect]s; code that can
      call [process.exit] lives in the monad [Proc];
    - the three module-level variables are the record [Server]; the
      asynchronous callbacks are the transitions of [step], one per event
      the process waits for.

    What lies outside [server.ts] enters as input: [process.argv] and
    [process.env.PORT] through [Environment], the settlement of the
    collaborator's promise and of the browser launch through [Input]. A
    rejection of the collaborator carries an error object. Requests are
    those that reach the route handler of [GET /]. *)

From Stdlib Require Import ZArith Ascii.
From Stdlib Require String.
From stdpp Require Import gmap strings list fin_maps pretty.

(** ** JavaScript string and array primitives used by the server *)

Module JS.

(** The double-quote character, and a string wrapped in double quotes. *)
Definition dq : string := String (Ascii.ascii_of_nat 34) EmptyString.
Definition quoted (s : string) : string := dq +:+ s +:+ dq.

(** [s.replace(/c/g, by)] for a one-character pattern [c]. *)
Fixpoint replaceAll (c : ascii) (by_ : string) (s : string) : string :=
  match s with
  | EmptyString => EmptyString
  | String a rest =>
      if Ascii.eqb a c then by_ +:+ replaceAll c by_ rest
      else String a (replaceAll c by_ rest)
  end.

(** Source text of a literal in which [~] stands for the double quote
    (the tilde occurs nowhere in [server.ts]). *)
Definition lit (s : string) : string := replaceAll "~" dq s.

(** [s.startsWith(p)]. *)
Fixpoint startsWith (p s : string) : bool :=
  match p, s with
  | EmptyString, _ => true
  | String _ _, EmptyString => false
  | String a p', String b s' => Ascii.eqb a b && startsWith p' s'
  end.

(** [s.substring(n)]. *)
Fixpoint substring (n : nat) (s : string) : string :=
  match n, s with
  | O, _ => s
  | S _, EmptyString => EmptyString
  | S n', String _ rest => substring n' rest
  end.

(** [s.split(sep)] for a one-character separator: never empty, the
    empty string splits into one empty piece. *)
Fixpoint split (sep : ascii) (s : string) : list string :=
  match s with
  | EmptyString => [EmptyString]
  | String a rest =>
      if Ascii.eqb a sep then EmptyString :: split sep rest
      else match split sep rest with
           | piece :: pieces => String a piece :: pieces
           | [] => [String a EmptyString]
           end
  end.

(** A template literal: its pieces, concatenated. *)
Definition template (pieces : list string) : string :=
  String.concat EmptyString pieces.

(** [l.join(sep)]. *)
Definition join (sep : string) (l : list string) : string :=
  String.concat sep l.

(** [l.includes(v)] on an array of strings. *)
Definition includes (l : list string) (v : string) : bool :=
  existsb (String.eqb v) l.

(** Truthiness of a string, and [s || d]. *)
Definition truthy (s : string) : bool := negb (String.eqb s EmptyString).
Definition orElse (s d : string) : string := if truthy s then s else d.

(** Truthiness of a possibly undefined string, and [s || d] for it. *)
Definition orElseOpt (s : option string) (d : string) : string :=
  match s with
  | Some v => orElse v d
  | None => d
  end.

End JS.

(** ** Data model *)

(** [interface Job]: the two optional properties are [option]s. *)
Record Job : Type := mkJob {
  position : string;
  company : string;
  companyLogo : option string;
  location : string;
  date : string;
  agoTime : string;
  salary : option string;
  jobUrl : string
}.

(** What the collaborator's promise resolves with: an array of jobs, or
    any other JavaScript value. *)
Inductive ApiResponse : Type :=
| RespArray (jobs : list Job)
| RespUndefined
| RespNull
| RespBoolean (b : bool)
| RespNumber (n : Z)
| RespString (s : string)
| RespObject (props : list (string * string)).

(** [Array.isArray(response)]. *)
Definition isArray (r : ApiResponse) : bool :=
  match r with
  | RespArray _ => true
  | _ => false
  end.

(** What the collaborator's promise rejects with: an error object whose
    [message] and [response] may be undefined, as may [response.status]. *)
Record ErrorResponse : Type := mkErrorResponse { status : option Z }.
Record ApiError : Type := mkApiError {
  message : option string;
  response : option ErrorResponse
}.

(** The arguments of a [console] call: text, or a value printed after it. *)
Inductive LogArg : Type :=
| Text (s : string)
| ResponseValue (r : ApiResponse)
| ErrorValue (e : ApiError)
| OpenFailure (err : string).

Inductive Level : Type := LogLevel | WarnLevel | ErrorLevel.

(** The observable actions of the process, in the order they happen:
    [console.log/warn/error(...)], [linkedIn.query(queryOptions)],
    [open(url)] and [res.send(body)]. *)
Inductive Effect : Type :=
| Console (level : Level) (args : list LogArg)
| Query (queryOptions : gmap string string)
| OpenBrowser (url : string)
| Send (body : string).

Definition ConsoleLog (text : string) : Effect := Console LogLevel [Text text].
Definition ConsoleWarn (text : string) : Effect := Console WarnLevel [Text text].

(** ** Computations that may end the process

    [Ret tr a]: returned [a] after the effects [tr];
    [Exit tr code]: [process.exit(code)] was called after the effects [tr],
    nothing after it runs. *)
Inductive Proc (A : Type) : Type :=
| Ret (tr : list Effect) (a : A)
| Exit (tr : list Effect) (code : Z).
Arguments Ret {A} tr a.
Arguments Exit {A} tr code.

Definition Proc_bind {A B : Type} (f : A → Proc B) (m : Proc A) : Proc B :=
  match m with
  | Ret tr a =>
      match f a with
      | Ret tr' b => Ret (tr ++ tr') b
      | Exit tr' code => Exit (tr ++ tr') code
      end
  | Exit tr code => Exit tr code
  end.

#[export] Instance Proc_ret : MRet Proc := λ A a, Ret [] a.
#[export] Instance Proc_mbind : MBind Proc := λ A B f m, Proc_bind f m.

Definition emit (e : Effect) : Proc unit := Ret [e] tt.
Definition exit {A : Type} (code : Z) : Proc A := Exit [] code.

(** The trace of a computation, whichever way it ended. *)
Definition trace {A : Type} (m : Proc A) : list Effect :=
  match m with
  | Ret tr _ => tr
  | Exit tr _ => tr
  end.

(** ** [escapeHtml] *)

Definition escapeHtml (unsafe : string) : string :=
  JS.replaceAll "'" "&#039;"
    (JS.replaceAll (Ascii.ascii_of_nat 34) "&quot;"
      (JS.replaceAll ">" "&gt;"
        (JS.replaceAll "<" "&lt;"
          (JS.replaceAll "&" "&amp;" unsafe)))).

(** ** [showHelpAndExit] *)

Definition usageText : string := JS.lit "
Usage: npm start [--keyword=~<keywords>~] [--location=~<location>~] [--dateSincePosted=~<timeframe>~] [--limit=~<number>~] [--jobType=~<type>~] [--remoteFilter=~<filter>~] [--salary=~<salary_range>~] [--experienceLevel=~<level>~] [--sortBy=~<sort_order>~]

Note: Job search is performed once when the server starts based on these parameters.
      The browser will open automatically after the initial search.

Options:
  --keyword          : Search terms (e.g., ~React, Node.js~). Default: ~Vue.js, Angular~
  --location         : Job location (e.g., ~London~, ~Remote~). Default: ~~ (global)
  --dateSincePosted  : Filter by post date. Valid values: ~24hr~, ~past Week~, ~past Month~, ~~. Default: ~past Week~
  --limit            : Number of jobs returned. (e.g., ~10~, ~100~). Default: ~100~
  --jobType          : Type of position. Valid values: ~full time~, ~part time~, ~contract~, ~temporary~, ~volunteer~, ~internship~, ~~. Default: ~~
  --remoteFilter     : Filter telecommuting. Valid values: ~on site~, ~remote~, ~hybrid~, ~~. Default: ~~
  --salary           : Minimum salary. Valid values: ~40000~, ~60000~, ~80000~, ~100000~, ~120000~, ~~. Default: ~~
  --experienceLevel  : Required experience. Valid values: ~internship~, ~entry level~, ~associate~, ~senior~, ~director~, ~executive~, ~~. Default: ~~
  --sortBy           : Result ordering. Valid values: ~recent~, ~relevant~. Default: ~recent~
  --help             : Show this help message and exit.

Example:
  npm start -- --keyword=~TypeScript~ --location=~Remote~ --dateSincePosted=~24hr~ --limit=~50~
    ".

Definition showHelpAndExit {A : Type} : Proc A :=
  _ ← emit (ConsoleLog usageText);
  exit 0.

(** ** [parseCommandLineArgs] *)

Definition validDateSincePosted : list string :=
  ["24hr"; "past Week"; "past Month"; EmptyString].
Definition validJobTypes : list string :=
  ["full time"; "part time"; "contract"; "temporary"; "volunteer";
   "internship"; EmptyString].
Definition validRemoteFilters : list string :=
  ["on site"; "remote"; "hybrid"; EmptyString].
Definition validSalaries : list string :=
  ["40000"; "60000"; "80000"; "100000"; "120000"; EmptyString].
Definition validExperienceLevels : list string :=
  ["internship"; "entry level"; "associate"; "senior"; "director";
   "executive"; EmptyString].
Definition validSortBys : list string := ["recent"; "relevant"].

(** The warning of an enumerated case whose value is not in [valid]. *)
Definition invalidValueWarning (key value : string) (valid : list string)
  : string :=
  "Invalid value for --" +:+ key +:+ ": " +:+ JS.quoted value
    +:+ ". Must be one of " +:+ JS.join ", " (map JS.quoted valid)
    +:+ ". Ignoring.".

(** The body shared by the six enumerated cases of the switch:
    [if (valid.includes(value)) args[key] = value; else console.warn(..)]. *)
Definition enumCase (valid : list string) (key value : string)
    (args : gmap string string) : Proc (gmap string string) :=
  if JS.includes valid value then mret (<[key := value]> args)
  else
    _ ← emit (ConsoleWarn (invalidValueWarning key value valid));
    mret args.

(** [switch (key) { ... }]. *)
Definition switchKey (key value : string) (args : gmap string string)
  : Proc (gmap string string) :=
  if String.eqb key "keyword" || String.eqb key "location"
     || String.eqb key "limit"
  then mret (<[key := value]> args)
  else if String.eqb key "dateSincePosted"
  then enumCase validDateSincePosted key value args
  else if String.eqb key "jobType"
  then enumCase validJobTypes key value args
  else if String.eqb key "remoteFilter"
  then enumCase validRemoteFilters key value args
  else if String.eqb key "salary"
  then enumCase validSalaries key value args
  else if String.eqb key "experienceLevel"
  then enumCase validExperienceLevels key value args
  else if String.eqb key "sortBy"
  then enumCase validSortBys key value args
  else
    _ ← emit (ConsoleWarn
               ("Unknown command-line argument: --" +:+ key +:+ ". Ignoring."));
    mret args.

(** The [else] branch of [if (key && value !== undefined)]. *)
Definition invalidFormat (arg : string) (args : gmap string string)
  : Proc (gmap string string) :=
  _ ← emit (ConsoleWarn
             ("Invalid command-line argument format: " +:+ JS.quoted arg
                +:+ ". Expected --key=value. Ignoring."));
  mret args.

(** One iteration of the [for] loop, on [arg = process.argv[i]]. *)
Definition loopBody (arg : string) (args : gmap string string)
  : Proc (gmap string string) :=
  _ ← (if String.eqb arg "--help" || String.eqb arg "-h"
       then showHelpAndExit else mret tt);
  if JS.startsWith "--" arg then
    let parts := JS.split "=" (JS.substring 2 arg) in
    let key := parts !! 0%nat in
    let value := parts !! 1%nat in
    match key, value with
    | Some key, Some value =>
        if JS.truthy key then switchKey key value args
        else invalidFormat arg args
    | _, _ => invalidFormat arg args
    end
  else
    _ ← emit (ConsoleWarn
               ("Unrecognized command-line argument: " +:+ JS.quoted arg
                  +:+ ". Expected arguments to start with '--'. Ignoring."));
    mret args.

(** The loop over the remaining arguments. *)
Fixpoint parseLoop (rest : list string) (args : gmap string string)
  : Proc (gmap string string) :=
  match rest with
  | [] => mret args
  | arg :: rest' => args' ← loopBody arg args; parseLoop rest' args'
  end.

(** [parseCommandLineArgs()], reading [process.argv = argv]: the loop
    starts at index 2. *)
Definition parseCommandLineArgs (argv : list string)
  : Proc (gmap string string) :=
  parseLoop (drop 2 argv) ∅.

(** ** [getEffectiveQueryOptions] *)

Definition hardcodedDefaultOptions : gmap string string :=
  <["keyword" := "Vue.js, Angular"]>
  (<["location" := "london"]>
  (<["dateSincePosted" := "past Week"]>
  (<["limit" := "100"]>
  (<["jobType" := EmptyString]>
  (<["remoteFilter" := EmptyString]>
  (<["salary" := EmptyString]>
  (<["experienceLevel" := EmptyString]>
  (<["sortBy" := "recent"]> ∅)))))))).

(** [{ ...hardcodedDefaultOptions, ...cmdLineArgs }]: the union keeps the
    left operand's value on a common key. *)
Definition getEffectiveQueryOptions (argv : list string)
  : Proc (gmap string string) :=
  cmdLineArgs ← parseCommandLineArgs argv;
  mret (cmdLineArgs ∪ hardcodedDefaultOptions).

(** ** The page served on [GET /]

    Template literals are [JS.template] applied to their pieces in source
    order: the literal text as it is, and one entry per [${...}]. *)

(** [current === option ? 'selected' : '']. *)
Definition selected (current option_ : string) : string :=
  if String.eqb current option_ then "selected" else EmptyString.

(** The template of one table row, the body of [cachedJobs.map]. *)
Definition jobRow (job : Job) : string :=
  JS.template [
    "
                                        <tr>
                                            <td>";
    escapeHtml (JS.orElse (position job) "N/A");
    "</td>
                                            <td>";
    escapeHtml (JS.orElse (company job) "N/A");
    "</td>
                                            <td>";
    escapeHtml (JS.orElse (location job) "N/A");
    "</td>
                                            <td>";
    escapeHtml (JS.orElse (date job) "N/A");
    " (";
    escapeHtml (JS.orElse (agoTime job) "N/A");
    ")</td>
                                            <td>";
    escapeHtml (JS.orElseOpt (salary job) "N/A");
    JS.lit "</td>
                                            <td><a href=~";
    escapeHtml (JS.orElse (jobUrl job) "#");
    JS.lit "~ target=~_blank~ class=~job-link rounded-md p-1 hover:bg-indigo-50~>View Job</a></td>
                                        </tr>
                                    "
  ].

(** [cachedJobs.map((job) => ...).join('')]. *)
Definition jobRows (cachedJobs : list Job) : string :=
  JS.join EmptyString (map jobRow cachedJobs).

(** [cachedErrorMessage ? `<div ...>` : ''] *)
Definition errorBanner (cachedErrorMessage : string) : string :=
  if JS.truthy cachedErrorMessage then
    JS.template [
      JS.lit "<div class=~bg-red-100 border border-red-400 text-red-700 px-4 py-3 rounded-md relative mb-6~ role=~alert~>
                            <strong class=~font-bold~>Error!</strong>
                            <span class=~block sm:inline~>";
      cachedErrorMessage;
      "</span>
                        </div>"
    ]
  else EmptyString.

(** The argument of [res.send]. *)
Definition renderPage (queryOptionsForForm : gmap string string)
    (cachedErrorMessage : string) (cachedJobs : list Job) : string :=
  JS.template [
    JS.lit "
        <!DOCTYPE html>
        <html lang=~en~>
        <head>
            <meta charset=~UTF-8~>
            <meta name=~viewport~ content=~width=device-width, initial-scale=1.0~>
            <title>LinkedIn Job Search (TypeScript)</title>
            <script src=~https://cdn.tailwindcss.com~></script>
            <link href=~https://fonts.googleapis.com/css2?family=Inter:wght@300;400;500;600;700&display=swap~ rel=~stylesheet~>
            <style>
                body {
                    font-family: 'Inter', sans-serif;
                    background-color: #f3f4f6;
                    color: #333;
                }
                .container {
                    max-width: 1200px;
                    margin: 2rem auto;
                    padding: 1.5rem;
                    background-color: #ffffff;
                    border-radius: 0.75rem;
                    box-shadow: 0 4px 6px rgba(0, 0, 0, 0.1);
                }
                .form-input {
                    padding: 0.6rem 1rem;
                    border: 1px solid #d1d5db;
                    border-radius: 0.5rem;
                    width: 100%;
                    box-sizing: border-box;
                    transition: border-color 0.2s;
                }
                .form-input:focus {
                    outline: none;
                    border-color: #6366f1; /* Indigo-500 */
                }
                .btn {
                    padding: 0.75rem 1.5rem;
                    border-radius: 0.5rem;
                    font-weight: 600;
                    cursor: pointer;
                    transition: background-color 0.2s, transform 0.1s;
                }
                .btn-primary {
                    background-color: #6366f1; /* Indigo-500 */
                    color: #ffffff;
                    box-shadow: 0 2px 4px rgba(0, 0, 0, 0.1);
                }
                .btn-primary:hover {
                    background-color: #4f46e5; /* Indigo-600 */
                    transform: translateY(-1px);
                }
                .btn-secondary {
                    background-color: #e5e7eb; /* Gray-200 */
                    color: #374151; /* Gray-700 */
                    box-shadow: 0 2px 4px rgba(0, 0, 0, 0.05);
                }
                .btn-secondary:hover {
                    background-color: #d1d5db; /* Gray-300 */
                    transform: translateY(-1px);
                }
                table {
                    width: 100%;
                    border-collapse: collapse;
                    margin-top: 1.5rem;
                }
                th, td {
                    text-align: left;
                    padding: 0.8rem 1rem;
                    border-bottom: 1px solid #e5e7eb; /* Gray-200 */
                }
                th {
                    background-color: #f9fafb; /* Gray-50 */
                    font-weight: 600;
                    color: #4b5563; /* Gray-600 */
                    position: sticky;
                    top: 0;
                    z-index: 10;
                }
                tbody tr:hover {
                    background-color: #f3f4f6; /* Gray-100 */
                }
                .job-link {
                    color: #6366f1;
                    text-decoration: none;
                }
                .job-link:hover {
                    text-decoration: underline;
                }
                .filter-section {
                    display: grid;
                    grid-template-columns: repeat(auto-fit, minmax(250px, 1fr));
                    gap: 1rem;
                }
            </style>
        </head>
        <body>
            <div class=~container~>
                <h1 class=~text-3xl font-bold text-center text-indigo-700 mb-6 rounded-md p-2~>LinkedIn Job Search (TypeScript)</h1>

                <form id=~filterForm~ class=~mb-8 p-6 bg-gray-50 rounded-lg shadow-sm~>
                    <div class=~filter-section mb-4~>
                        <div>
                            <label for=~keyword~ class=~block text-sm font-medium text-gray-700 mb-1~>Keywords (comma-separated):</label>
                            <input type=~text~ id=~keyword~ name=~keyword~ class=~form-input~ value=~";
    escapeHtml (queryOptionsForForm !!! "keyword");
    JS.lit "~>
                        </div>
                        <div>
                            <label for=~location~ class=~block text-sm font-medium text-gray-700 mb-1~>Location:</label>
                            <input type=~text~ id=~location~ name=~location~ class=~form-input~ value=~";
    escapeHtml (queryOptionsForForm !!! "location");
    JS.lit "~>
                        </div>
                        <div>
                            <label for=~dateSincePosted~ class=~block text-sm font-medium text-gray-700 mb-1~>Date Posted:</label>
                            <select id=~dateSincePosted~ name=~dateSincePosted~ class=~form-input~>
                                <option value=~past Week~ ";
    selected (queryOptionsForForm !!! "dateSincePosted") "past Week";
    JS.lit ">Past Week</option>
                                <option value=~24hr~ ";
    selected (queryOptionsForForm !!! "dateSincePosted") "24hr";
    JS.lit ">Past 24 Hours</option>
                                <option value=~past Month~ ";
    selected (queryOptionsForForm !!! "dateSincePosted") "past Month";
    JS.lit ">Past Month</option>
                                <option value=~~ ";
    selected (queryOptionsForForm !!! "dateSincePosted") EmptyString;
    JS.lit ">Anytime</option>
                            </select>
                        </div>
                        <div>
                            <label for=~limit~ class=~block text-sm font-medium text-gray-700 mb-1~>Limit:</label>
                            <input type=~number~ id=~limit~ name=~limit~ class=~form-input~ value=~";
    escapeHtml (queryOptionsForForm !!! "limit");
    JS.lit "~ min=~1~ max=~1000~>
                        </div>
                        <div>
                            <label for=~jobType~ class=~block text-sm font-medium text-gray-700 mb-1~>Job Type:</label>
                            <select id=~jobType~ name=~jobType~ class=~form-input~>
                                <option value=~~ ";
    selected (queryOptionsForForm !!! "jobType") EmptyString;
    JS.lit ">Any</option>
                                <option value=~full time~ ";
    selected (queryOptionsForForm !!! "jobType") "full time";
    JS.lit ">Full-time</option>
                                <option value=~part time~ ";
    selected (queryOptionsForForm !!! "jobType") "part time";
    JS.lit ">Part-time</option>
                                <option value=~contract~ ";
    selected (queryOptionsForForm !!! "jobType") "contract";
    JS.lit ">Contract</option>
                                <option value=~temporary~ ";
    selected (queryOptionsForForm !!! "jobType") "temporary";
    JS.lit ">Temporary</option>
                                <option value=~volunteer~ ";
    selected (queryOptionsForForm !!! "jobType") "volunteer";
    JS.lit ">Volunteer</option>
                                <option value=~internship~ ";
    selected (queryOptionsForForm !!! "jobType") "internship";
    JS.lit ">Internship</option>
                            </select>
                        </div>
                        <div>
                            <label for=~remoteFilter~ class=~block text-sm font-medium text-gray-700 mb-1~>Remote:</label>
                            <select id=~remoteFilter~ name=~remoteFilter~ class=~form-input~>
                                <option value=~~ ";
    selected (queryOptionsForForm !!! "remoteFilter") EmptyString;
    JS.lit ">Any</option>
                                <option value=~remote~ ";
    selected (queryOptionsForForm !!! "remoteFilter") "remote";
    JS.lit ">Remote</option>
                                <option value=~on site~ ";
    selected (queryOptionsForForm !!! "remoteFilter") "on site";
    JS.lit ">On-site</option>
                                <option value=~hybrid~ ";
    selected (queryOptionsForForm !!! "remoteFilter") "hybrid";
    JS.lit ">Hybrid</option>
                            </select>
                        </div>
                        <div>
                            <label for=~experienceLevel~ class=~block text-sm font-medium text-gray-700 mb-1~>Experience Level:</label>
                            <select id=~experienceLevel~ name=~experienceLevel~ class=~form-input~>
                                <option value=~~ ";
    selected (queryOptionsForForm !!! "experienceLevel") EmptyString;
    JS.lit ">Any</option>
                                <option value=~internship~ ";
    selected (queryOptionsForForm !!! "experienceLevel") "internship";
    JS.lit ">Internship</option>
                                <option value=~entry level~ ";
    selected (queryOptionsForForm !!! "experienceLevel") "entry level";
    JS.lit ">Entry Level</option>
                                <option value=~associate~ ";
    selected (queryOptionsForForm !!! "experienceLevel") "associate";
    JS.lit ">Associate</option>
                                <option value=~senior~ ";
    selected (queryOptionsForForm !!! "experienceLevel") "senior";
    JS.lit ">Senior</option>
                                <option value=~director~ ";
    selected (queryOptionsForForm !!! "experienceLevel") "director";
    JS.lit ">Director</option>
                                <option value=~executive~ ";
    selected (queryOptionsForForm !!! "experienceLevel") "executive";
    JS.lit ">Executive</option>
                            </select>
                        </div>
                        <div>
                            <label for=~sortBy~ class=~block text-sm font-medium text-gray-700 mb-1~>Sort By:</label>
                            <select id=~sortBy~ name=~sortBy~ class=~form-input~>
                                <option value=~recent~ ";
    selected (queryOptionsForForm !!! "sortBy") "recent";
    JS.lit ">Recent</option>
                                <option value=~relevant~ ";
    selected (queryOptionsForForm !!! "sortBy") "relevant";
    JS.lit ">Relevant</option>
                            </select>
                        </div>
                            </div>
                            <div class=~flex justify-end gap-3 mt-4~>
                                <button type=~submit~ class=~btn btn-primary~>Apply Filters</button>
                                <button type=~button~ id=~exportCsvBtn~ class=~btn btn-secondary~>Export to CSV</button>
                            </div>
                        </form>

                        ";
    errorBanner cachedErrorMessage;
    JS.lit "

                        <div class=~overflow-x-auto rounded-lg shadow-md~>
                            <table id=~jobTable~ class=~min-w-full bg-white rounded-lg~>
                                <thead>
                                    <tr>
                                        <th>Position</th>
                                        <th>Company</th>
                                        <th>Location</th>
                                        <th>Posted Date</th>
                                        <th>Salary</th>
                                        <th>Link</th>
                                    </tr>
                                </thead>
                                <tbody>
                                    ";
    jobRows cachedJobs;
    JS.lit "
                                </tbody>
                            </table>
                        </div>
                    </div>

                    <script>
                        document.getElementById('filterForm').addEventListener('submit', function(event) {
                            event.preventDefault(); // Prevent default form submission

                            // Since job data is fetched once at server startup,
                            // this client-side form now only provides visual filtering
                            // or serves as an indicator of what parameters were used.
                            // The actual job search on the server does NOT react to these changes.
                            // To change job search parameters, you must restart the Node.js server
                            // with new command-line arguments.
                            alert('To change job search parameters, please restart the Node.js server with new command-line arguments. The current display is based on the initial server startup parameters.');
                        });


                        document.getElementById('exportCsvBtn').addEventListener('click', function() {
                            const table = document.getElementById('jobTable');
                            let csv = [];
                            // Get table headers
                            const headers = Array.from(table.querySelectorAll('th')).map(th => th.innerText.trim());
                            csv.push(headers.join(','));

                            // Get table rows
                            table.querySelectorAll('tbody tr').forEach(row => {
                                const rowData = Array.from(row.querySelectorAll('td')).map((td, index) => {
                                    // For the link column, get the href
                                    if (index === 5) { // Assuming link is the 6th column (index 5)
                                        return td.querySelector('a') ? td.querySelector('a').href : '';
                                    }
                                    // Escape double quotes and enclose in double quotes if it contains commas or double quotes
                                    let text = td.innerText.trim();
                                    text = text.replace(/~/g, '~~'); // Escape double quotes
                                    if (text.includes(',') || text.includes('~') || text.includes('\n') || text.includes('\r')) {
                                        text = `~${text}~`;
                                    }
                                    return text;
                                });
                                csv.push(rowData.join(','));
                            });

                            // Create a Blob and download it
                            const csvFile = new Blob([csv.join('\n')], { type: 'text/csv' });
                            const downloadLink = document.createElement('a');
                            downloadLink.download = 'linkedin_jobs.csv';
                            downloadLink.href = window.URL.createObjectURL(csvFile);
                            downloadLink.style.display = 'none';
                            document.body.appendChild(downloadLink);
                            downloadLink.click();
                            document.body.removeChild(downloadLink);
                        });
                    </script>
                </body>
                </html>
            "
  ].

(** ** Process state and the asynchronous callbacks *)

(** What the process reads from its surroundings: [process.argv] and
    [process.env.PORT] (undefined when [None]). *)
Record Environment : Type := mkEnvironment {
  argv : list string;
  envPORT : option string
}.

(** [const PORT = process.env.PORT || 3000], as it prints in a template. *)
Definition PORT (env : Environment) : string :=
  JS.orElseOpt (envPORT env) "3000".

(** The three module-level variables. [isInitialFetchComplete] is written
    by the [.finally] callback and read nowhere. *)
Record Server : Type := mkServer {
  cachedJobs : list Job;
  cachedErrorMessage : string;
  isInitialFetchComplete : bool
}.

Definition initialServer : Server :=
  {| cachedJobs := []; cachedErrorMessage := EmptyString;
     isInitialFetchComplete := false |}.

(** The handler of [app.get('/')]. *)
Definition getRoot (env : Environment) (s : Server) : Proc Server :=
  queryOptionsForForm ← getEffectiveQueryOptions (argv env);
  _ ← emit (Send (renderPage queryOptionsForForm (cachedErrorMessage s)
                    (cachedJobs s)));
  mret s.

(** The callback of [app.listen], up to the call of [linkedIn.query]. *)
Definition onListening (env : Environment) (s : Server) : Proc Server :=
  _ ← emit (ConsoleLog ("Server running on http://localhost:" +:+ PORT env));
  queryOptions ← getEffectiveQueryOptions (argv env);
  _ ← emit (ConsoleLog "Performing initial job search...");
  _ ← emit (Query queryOptions);
  mret s.

(** The [.then] callback of the query. *)
Definition onQueryFulfilled (response : ApiResponse) (s : Server)
  : Proc Server :=
  match response with
  | RespArray jobs =>
      let s := {| cachedJobs := jobs;
                  cachedErrorMessage := cachedErrorMessage s;
                  isInitialFetchComplete := isInitialFetchComplete s |} in
      _ ← emit (ConsoleLog ("Initial fetch completed. Fetched "
                              +:+ pretty (length (cachedJobs s)) +:+ " jobs."));
      mret s
  | _ =>
      _ ← emit (Console WarnLevel
                 [Text "Initial fetch: API response was not an array or was empty:";
                  ResponseValue response]);
      mret {| cachedJobs := cachedJobs s;
              cachedErrorMessage :=
                "No jobs found or unexpected API response format during initial fetch.";
              isInitialFetchComplete := isInitialFetchComplete s |}
  end.

(** [error.response && error.response.status === 429]. *)
Definition isRateLimited (error : ApiError) : bool :=
  match response error with
  | Some r =>
      match status r with
      | Some code => Z.eqb code 429
      | None => false
      end
  | None => false
  end.

Definition rateLimitHint : string :=
  " You might have hit a rate limit. Please wait and try again.".

(** The [.catch] callback of the query. *)
Definition onQueryRejected (error : ApiError) (s : Server) : Proc Server :=
  _ ← emit (Console ErrorLevel
             [Text "Initial fetch: Error fetching jobs:"; ErrorValue error]);
  let s := {| cachedJobs := cachedJobs s;
              cachedErrorMessage :=
                "Failed to fetch jobs during initial startup: "
                  +:+ JS.orElseOpt (message error) "Unknown error"
                  +:+ ". Please check your connection or API limits.";
              isInitialFetchComplete := isInitialFetchComplete s |} in
  if isRateLimited error then
    mret {| cachedJobs := cachedJobs s;
            cachedErrorMessage := cachedErrorMessage s +:+ rateLimitHint;
            isInitialFetchComplete := isInitialFetchComplete s |}
  else mret s.

(** The [.finally] callback of the query, up to the call of [open]. *)
Definition onQuerySettled (env : Environment) (s : Server) : Proc Server :=
  let s := {| cachedJobs := cachedJobs s;
              cachedErrorMessage := cachedErrorMessage s;
              isInitialFetchComplete := true |} in
  _ ← emit (OpenBrowser ("http://localhost:" +:+ PORT env));
  mret s.

(** The [.then] and [.catch] callbacks of [open]. *)
Definition onOpenFulfilled (env : Environment) (s : Server) : Proc Server :=
  _ ← emit (ConsoleLog ("Opened http://localhost:" +:+ PORT env
                          +:+ " in browser."));
  mret s.

Definition onOpenRejected (err : string) (s : Server) : Proc Server :=
  _ ← emit (Console ErrorLevel [Text "Failed to open browser:"; OpenFailure err]);
  mret s.

(** *** The event loop

    What the process waits for: the [listening] event, the settlement of
    the query promise, the settlement of the [open] promise; once it
    listens it also accepts requests. A promise settles once, so each
    settlement is accepted only while its promise is pending. The [.then]
    or [.catch] callback and the [.finally] callback run back to back, with
    no request in between. *)
Inductive Phase : Type :=
| Booting
| QueryPending
| OpenPending
| Idle
| Exited (code : Z).

Inductive Input : Type :=
| Listening
| QueryFulfilled (response : ApiResponse)
| QueryRejected (error : ApiError)
| OpenFulfilled
| OpenRejected (err : string)
| GetRoot.

Record Process : Type := mkProcess {
  server : Server;
  phase : Phase
}.

Definition boot : Process := {| server := initialServer; phase := Booting |}.

(** The callback that an input runs in a phase, and the phase it leaves
    the process in; [None] when the input cannot occur in that phase. *)
Definition dispatch (env : Environment) (ph : Phase) (i : Input)
  : option ((Server → Proc Server) * Phase) :=
  match ph, i with
  | Booting, Listening => Some (onListening env, QueryPending)
  | QueryPending, QueryFulfilled response =>
      Some (λ s, s ← onQueryFulfilled response s; onQuerySettled env s,
            OpenPending)
  | QueryPending, QueryRejected error =>
      Some (λ s, s ← onQueryRejected error s; onQuerySettled env s,
            OpenPending)
  | OpenPending, OpenFulfilled => Some (onOpenFulfilled env, Idle)
  | OpenPending, OpenRejected err => Some (onOpenRejected err, Idle)
  | QueryPending, GetRoot => Some (getRoot env, QueryPending)
  | OpenPending, GetRoot => Some (getRoot env, OpenPending)
  | Idle, GetRoot => Some (getRoot env, Idle)
  | _, _ => None
  end.

(** One turn of the event loop: the new process state and the effects of
    the turn. A callback that exits leaves the process [Exited]. *)
Definition step (env : Environment) (p : Process) (i : Input)
  : option (Process * list Effect) :=
  match dispatch env (phase p) i with
  | Some (callback, next) =>
      match callback (server p) with
      | Ret tr s => Some ({| server := s; phase := next |}, tr)
      | Exit tr code => Some ({| server := server p; phase := Exited code |}, tr)
      end
  | None => None
  end.

(** A run: the inputs in order, the effects concatenated. *)
Fixpoint run (env : Environment) (p : Process) (inputs : list Input)
  : option (Process * list Effect) :=
  match inputs with
  | [] => Some (p, [])
  | i :: rest =>
      match step env p i with
      | Some (p', tr) =>
          match run env p' rest with
          | Some (p'', tr') => Some (p'', tr ++ tr')
          | None => None
          end
      | None => None
      end
  end.

(** ** Vocabulary of the specification *)

(** Number of occurrences of a character in a string. *)
Fixpoint countChar (c : ascii) (s : string) : nat :=
  match s with
  | EmptyString => 0
  | String a rest => (if Ascii.eqb a c then 1 else 0) + countChar c rest
  end.

(** The characters that open or close a tag or an attribute value. *)
Definition markupChars : list ascii :=
  ["<"; ">"; Ascii.ascii_of_nat 34; "'"]%char.

(** A job whose every field is empty or absent. *)
Definition blankJob : Job :=
  mkJob EmptyString EmptyString None EmptyString EmptyString EmptyString None
    EmptyString.

(** [stripPrefix p s = Some r] exactly when [s] is [p] followed by [r]. *)
Fixpoint stripPrefix (p s : string) : option string :=
  match p, s with
  | EmptyString, _ => Some s
  | String _ _, EmptyString => None
  | String a p', String b s' =>
      if Ascii.eqb a b then stripPrefix p' s' else None
  end.

(** [interface QueryOptions]: each property with the members of its union
    type, [None] for a plain [string]. *)
Definition QueryOptions : list (string * option (list string)) :=
  [("keyword", None);
   ("location", None);
   ("dateSincePosted", Some ["24hr"; "past Week"; "past Month"; EmptyString]);
   ("limit", None);
   ("jobType", Some ["full time"; "part time"; "contract"; "temporary";
                     "volunteer"; "internship"; EmptyString]);
   ("remoteFilter", Some ["on site"; "remote"; "hybrid"; EmptyString]);
   ("salary", Some ["40000"; "60000"; "80000"; "100000"; "120000";
                    EmptyString]);
   ("experienceLevel", Some ["internship"; "entry level"; "associate";
                             "senior"; "director"; "executive"; EmptyString]);
   ("sortBy", Some ["recent"; "relevant"])].

(** The recognized keys. *)
Definition recognizedKeys : list string := map fst QueryOptions.

(** The enumeration of a key: [None] for a free-form or unknown key. *)
Fixpoint lookupEnumeration (key : string)
    (fields : list (string * option (list string))) : option (list string) :=
  match fields with
  | [] => None
  | (k, e) :: rest => if String.eqb key k then e else lookupEnumeration key rest
  end.
Definition enumeration (key : string) : option (list string) :=
  lookupEnumeration key QueryOptions.

(** A value is valid for a key when the key is free-form or the value is
    a member of the key's enumeration. *)
Definition validFor (key value : string) : bool :=
  match enumeration key with
  | Some members => bool_decide (value ∈ members)
  | None => true
  end.

(** The value of a token read as [--key=value], if it has that form. *)
Definition overrideValue (key tok : string) : option string :=
  stripPrefix ("--" +:+ key +:+ "=") tok.

(** A token of the form [--key=value] for some recognized key. *)
Definition isOverrideToken (tok : string) : bool :=
  existsb (λ key, bool_decide (is_Some (overrideValue key tok))) recognizedKeys.

(** A token whose value, read as [--key=value], holds no further [=]. *)
Definition plainFor (key tok : string) : bool :=
  match overrideValue key tok with
  | Some v => Nat.eqb (countChar "=" v) 0
  | None => true
  end.

(** The fixed default set, field by field. *)
Definition defaultSet : list (string * string) :=
  [("keyword", "Vue.js, Angular");
   ("location", "london");
   ("dateSincePosted", "past Week");
   ("limit", "100");
   ("jobType", EmptyString);
   ("remoteFilter", EmptyString);
   ("salary", EmptyString);
   ("experienceLevel", EmptyString);
   ("sortBy", "recent")].

(** The help tokens. *)
Definition isHelpToken (tok : string) : bool :=
  bool_decide (tok = "--help" ∨ tok = "-h").

(** The value of the last token of [args] that is [--key=value] with a
    value valid for [key]. *)
Fixpoint lastValidOverride (key : string) (args : list string)
  : option string :=
  match args with
  | [] => None
  | tok :: rest =>
      match lastValidOverride key rest with
      | Some v => Some v
      | None =>
          match overrideValue key tok with
          | Some v => if validFor key v then Some v else None
          | None => None
          end
      end
  end.

(** The override claim in the words of the specification: for a token
    [--key=value] with a recognized key, a valid value makes the resolved
    field the value of the last such token, and a value outside the
    enumeration leaves the resolved field at its default, with a warning. *)
Definition overrideClaimAsStated : Prop :=
  ∀ (argv : list string) (tr : list Effect) (q : gmap string string)
    (key tok value : string),
    getEffectiveQueryOptions argv = Ret tr q →
    key ∈ recognizedKeys → tok ∈ drop 2 argv →
    overrideValue key tok = Some value →
    if validFor key value
    then q !! key = lastValidOverride key (drop 2 argv)
    else q !! key = hardcodedDefaultOptions !! key
         ∧ ConsoleWarn (invalidValueWarning key value
                          (default [] (enumeration key))) ∈ tr.

(** Console output, as opposed to a query, a browser launch or a response. *)
Definition isConsole (e : Effect) : bool :=
  match e with
  | Console _ _ => true
  | _ => false
  end.

(** The inputs that settle the query promise. *)
Definition isSettlement (i : Input) : bool :=
  match i with
  | QueryFulfilled _ | QueryRejected _ => true
  | _ => false
  end.

(** The phases in which the query promise has not settled yet. *)
Definition earlyPhase (ph : Phase) : bool :=
  match ph with
  | Booting | QueryPending => true
  | _ => false
  end.

(** The URLs of the browser launches of a trace, in order. *)
Definition launchedUrl (e : Effect) : option string :=
  match e with
  | OpenBrowser url => Some url
  | _ => None
  end.
Definition launchedUrls (tr : list Effect) : list string :=
  omap launchedUrl tr.

(** The base URL of the server. *)
Definition baseUrl (env : Environment) : string :=
  "http://localhost:" +:+ PORT env.

(** [sub] occurs in [s]. *)
Definition contains (sub s : string) : Prop :=
  ∃ before after, s = before +:+ sub +:+ after.

(** The outcome claim in the words of the specification, as far as it
    fails: in a reachable state both caches are empty only while the fetch
    has not completed. *)
Definition outcomeClaimAsStated : Prop :=
  ∀ (env : Environment) (inputs : list Input) (p : Process)
    (tr : list Effect),
    run env boot inputs = Some (p, tr) →
    cachedJobs (server p) = [] →
    cachedErrorMessage (server p) = EmptyString →
    isInitialFetchComplete (server p) = false.

(** An error that carries a message and a response of status 429. *)
Definition rateLimited (msg : string) : ApiError :=
  {| message := Some msg;
     response := Some {| status := Some 429%Z |} |}.

(** Sample data for the concrete runs below. *)
Definition exampleEnv : Environment :=
  {| argv := ["node"; "dist/server.js"; "--keyword=React"]; envPORT := None |}.
Definition exampleJob (n : string) : Job :=
  {| position := "Engineer " +:+ n; company := "Acme & Sons";
     companyLogo := None; location := "London"; date := "2024-05-01";
     agoTime := "2 days ago"; salary := None;
     jobUrl := "https://example.org/jobs/" +:+ n |}.


(** ** Vocabulary of the further properties *)

(** What [escapeHtml] writes for one character. *)
Definition escapeChar (c : ascii) : string :=
  if Ascii.eqb c "&" then "&amp;"
  else if Ascii.eqb c "<" then "&lt;"
  else if Ascii.eqb c ">" then "&gt;"
  else if Ascii.eqb c (Ascii.ascii_of_nat 34) then "&quot;"
  else if Ascii.eqb c "'" then "&#039;"
  else String c EmptyString.

(** The characters [escapeHtml] rewrites. *)
Definition escapedChars : list ascii :=
  ["&"; "<"; ">"; Ascii.ascii_of_nat 34; "'"]%char.

(** Each character replaced by a text, left to right. *)
Fixpoint flatMap (f : ascii → string) (s : string) : string :=
  match s with
  | EmptyString => EmptyString
  | String c rest => f c +:+ flatMap f rest
  end.

(** The part of a value before its first [=]. *)
Fixpoint beforeEquals (v : string) : string :=
  match v with
  | EmptyString => EmptyString
  | String c rest =>
      if Ascii.eqb c "=" then EmptyString else String c (beforeEquals rest)
  end.

(** A token that gives some recognized key a value whose part before the
    first [=] is valid for the key. *)
Definition applied (tok : string) : bool :=
  existsb
    (λ key, match overrideValue key tok with
            | Some v => validFor key (beforeEquals v)
            | None => false
            end)
    recognizedKeys.

(** The queries and the responses of a trace, in order. *)
Definition queryOf (e : Effect) : option (gmap string string) :=
  match e with
  | Query queryOptions => Some queryOptions
  | _ => None
  end.
Definition queriesOf (tr : list Effect) : list (gmap string string) :=
  omap queryOf tr.
Definition responseOf (e : Effect) : option string :=
  match e with
  | Send body => Some body
  | _ => None
  end.
Definition responsesOf (tr : list Effect) : list string :=
  omap responseOf tr.

(** The requests among the inputs. *)
Definition isGetRoot (i : Input) : bool :=
  match i with
  | GetRoot => true
  | _ => false
  end.
Definition requests (inputs : list Input) : nat :=
  length (filter (λ i, isGetRoot i = true) inputs).

(** The value the last applied token gives [key]: the part before any
    further [=] of the value of the last token [--key=value] for which that
    part is valid. *)
Fixpoint lastApplied (key : string) (args : list string) : option string :=
  match args with
  | [] => None
  | tok :: rest =>
      match lastApplied key rest with
      | Some v => Some v
      | None =>
          match overrideValue key tok with
          | Some v =>
              if validFor key (beforeEquals v) then Some (beforeEquals v)
              else None
          | None => None
          end
      end
  end.

(** Whether a computation returned, and whether an input was taken. *)
Definition returned {A : Type} (m : Proc A) : bool :=
  match m with
  | Ret _ _ => true
  | Exit _ _ => false
  end.
Definition taken {A : Type} (o : option A) : bool :=
  match o with
  | Some _ => true
  | None => false
  end.

(** ** The CSV export of the page's script

    The handler of the [Export to CSV] button, which the page carries in
    its [<script>]. What it reads from the document is its input: the
    trimmed text of the header cells, and for each cell of each body row
    its trimmed text and the [href] of its first link, if it has one. *)

Definition LF : ascii := "010"%char.
Definition CR : ascii := "013"%char.

(** [s.includes(c)] for a one-character [c]. *)
Fixpoint includesChar (c : ascii) (s : string) : bool :=
  match s with
  | EmptyString => false
  | String a rest => Ascii.eqb a c || includesChar c rest
  end.

(** A [td]: [td.innerText.trim()], and [td.querySelector('a').href] when
    the cell has a link. *)
Record Cell : Type := mkCell {
  trimmedText : string;
  linkHref : option string
}.

(** The body of the callback after [let text = td.innerText.trim()]:
    quotes are doubled, and the text is wrapped in quotes when it holds a
    comma, a quote, a line feed or a carriage return. *)
Definition csvText (text : string) : string :=
  let text := JS.replaceAll (Ascii.ascii_of_nat 34) (JS.dq +:+ JS.dq) text in
  if includesChar "," text || includesChar (Ascii.ascii_of_nat 34) text
     || includesChar LF text || includesChar CR text
  then JS.quoted text
  else text.

(** The callback of [map((td, index) => ...)]: the sixth cell gives the
    address of its link as it is, the others their text. *)
Definition csvCell (index : nat) (td : Cell) : string :=
  if Nat.eqb index 5 then
    match linkHref td with
    | Some href => href
    | None => EmptyString
    end
  else csvText (trimmedText td).

(** [rowData.join(',')] for one row, and the text of the file:
    [csv.join('\n')] with the header line first. *)
Definition csvRow (row : list Cell) : string :=
  JS.join "," (imap csvCell row).
Definition exportCsv (headers : list string) (rows : list (list Cell))
  : string :=
  JS.join (String LF EmptyString) (JS.join "," headers :: map csvRow rows).

(** *** A reader of CSV text

    Commas separate the fields of a record and line feeds the records; a
    field in double quotes may hold both, and a doubled quote inside it
    stands for one quote. *)
Inductive CsvMode : Type := Plain | Quoted | QuoteSeen.

Fixpoint readCsvFrom (mode : CsvMode) (field : string) (fields : list string)
    (s : string) : list (list string) :=
  match s with
  | EmptyString => [fields ++ [field]]
  | String c rest =>
      let more := field +:+ String c EmptyString in
      match mode with
      | Plain =>
          if Ascii.eqb c "," then
            readCsvFrom Plain EmptyString (fields ++ [field]) rest
          else if Ascii.eqb c LF then
            (fields ++ [field]) :: readCsvFrom Plain EmptyString [] rest
          else if Ascii.eqb c (Ascii.ascii_of_nat 34) then
            readCsvFrom Quoted field fields rest
          else readCsvFrom Plain more fields rest
      | Quoted =>
          if Ascii.eqb c (Ascii.ascii_of_nat 34) then
            readCsvFrom QuoteSeen field fields rest
          else readCsvFrom Quoted more fields rest
      | QuoteSeen =>
          if Ascii.eqb c (Ascii.ascii_of_nat 34) then
            readCsvFrom Quoted more fields rest
          else if Ascii.eqb c "," then
            readCsvFrom Plain EmptyString (fields ++ [field]) rest
          else if Ascii.eqb c LF then
            (fields ++ [field]) :: readCsvFrom Plain EmptyString [] rest
          else readCsvFrom Plain more fields rest
      end
  end.

Definition readCsv (s : string) : list (list string) :=
  readCsvFrom Plain EmptyString [] s.

(** A text that needs no quoting. *)
Definition plainText (s : string) : bool :=
  negb (includesChar "," s || includesChar (Ascii.ascii_of_nat 34) s
        || includesChar LF s || includesChar CR s).

(** What a cell stands for: the address of the link in the sixth cell,
    the text elsewhere. *)
Definition cellValue (index : nat) (td : Cell) : string :=
  if Nat.eqb index 5 then
    match linkHref td with
    | Some href => href
    | None => EmptyString
    end
  else trimmedText td.

(** A row whose sixth cell, if it has one, holds a plain address. *)
Definition plainLink (row : list Cell) : bool :=
  match row !! 5 with
  | Some td => plainText (cellValue 5 td)
  | None => true
  end.

(** Where a field and where a record may end. *)
Definition endsField (rest : string) : Prop :=
  match rest with
  | EmptyString => True
  | String c _ => c = ","%char ∨ c = LF
  end.

Definition endsLine (rest : string) : Prop :=
  match rest with
  | EmptyString => True
  | String c _ => c = LF
  end.

(** What the reader gives once a record is complete. *)
Definition finish (record : list string) (rest : string)
  : list (list string) :=
  match rest with
  | EmptyString => [record]
  | String _ rest => record :: readCsvFrom Plain EmptyString [] rest
  end.

(** How a written field is read. *)
Definition readsAs (written value : string) : Prop :=
  ∀ fields rest, endsField rest →
    readCsvFrom Plain EmptyString fields (written +:+ rest)
    = readCsvFrom Plain value fields rest.

(** A table with one row, whose texts hold commas and quotes. *)
Definition exampleHeaders : list string :=
  ["Position"; "Company"; "Location"; "Posted Date"; "Salary"; "Link"].
Definition exampleRow : list Cell :=
  [mkCell (JS.lit "Engineer, ~senior~") None; mkCell "Acme, Inc." None;
   mkCell "Leeds" None; mkCell "2 days ago" None; mkCell "N/A" None;
   mkCell "View Job" (Some "https://example.com/jobs/1")].
(** ** Facts about the string primitives *)

Section StringFacts.

Lemma append_nil_l (b : string) : EmptyString +:+ b = b.
Proof. reflexivity. Qed.

Lemma append_cons (x : ascii) (a b : string) :
  String x a +:+ b = String x (a +:+ b).
Proof. reflexivity. Qed.

Lemma append_assoc (a b c : string) : (a +:+ b) +:+ c = a +:+ (b +:+ c).
Proof.
  induction a as [|x a IH]; [done |].
  by rewrite !append_cons, IH.
Qed.

Lemma append_empty_r (a : string) : a +:+ EmptyString = a.
Proof. induction a as [|x a IH]; [done |]. by rewrite append_cons, IH. Qed.

Lemma countChar_app (c : ascii) (a b : string) :
  countChar c (a +:+ b) = countChar c a + countChar c b.
Proof.
  induction a as [|x a IH]; [done |].
  rewrite append_cons. simpl. rewrite IH. lia.
Qed.

Lemma template_cons (p : string) (pieces : list string) :
  JS.template (p :: pieces) = p +:+ JS.template pieces.
Proof.
  unfold JS.template. destruct pieces as [|q pieces]; simpl.
  - by rewrite append_empty_r.
  - by rewrite append_nil_l.
Qed.

Lemma countChar_template (c : ascii) (pieces : list string) :
  countChar c (JS.template pieces) = sum_list (map (countChar c) pieces).
Proof.
  induction pieces as [|p pieces IH]; [done |].
  rewrite template_cons, countChar_app, IH. done.
Qed.

(** Replacing [d] by a text without [c] leaves no [c] that was not
    there; replacing [c] itself leaves none at all. *)
Lemma countChar_replaceAll_other (c d : ascii) (by_ s : string) :
  countChar c by_ = 0 → countChar c s = 0 →
  countChar c (JS.replaceAll d by_ s) = 0.
Proof.
  intros Hby. induction s as [|x s IH]; simpl; [done |].
  intros Hs. destruct (Ascii.eqb x d).
  - rewrite countChar_app, Hby. apply IH. lia.
  - simpl. destruct (Ascii.eqb x c); [lia |]. apply IH. lia.
Qed.

Lemma countChar_replaceAll_same (c : ascii) (by_ s : string) :
  countChar c by_ = 0 → countChar c (JS.replaceAll c by_ s) = 0.
Proof.
  intros Hby. induction s as [|x s IH]; simpl; [done |].
  destruct (Ascii.eqb x c) eqn:E.
  - by rewrite countChar_app, Hby.
  - simpl. by rewrite E.
Qed.

End StringFacts.

(** ** [escapeHtml] removes every markup character *)

Lemma escapeHtml_lt (s : string) : countChar "<" (escapeHtml s) = 0.
Proof.
  unfold escapeHtml.
  do 3 (apply countChar_replaceAll_other; [done |]).
  by apply countChar_replaceAll_same.
Qed.

Lemma escapeHtml_gt (s : string) : countChar ">" (escapeHtml s) = 0.
Proof.
  unfold escapeHtml.
  do 2 (apply countChar_replaceAll_other; [done |]).
  by apply countChar_replaceAll_same.
Qed.

Lemma escapeHtml_dq (s : string) :
  countChar (Ascii.ascii_of_nat 34) (escapeHtml s) = 0.
Proof.
  unfold escapeHtml.
  apply countChar_replaceAll_other; [done |].
  by apply countChar_replaceAll_same.
Qed.

Lemma escapeHtml_sq (s : string) : countChar "'" (escapeHtml s) = 0.
Proof. unfold escapeHtml. by apply countChar_replaceAll_same. Qed.

Lemma escapeHtml_markup (s : string) :
  Forall (λ c, countChar c (escapeHtml s) = 0) markupChars.
Proof.
  repeat constructor;
    [apply escapeHtml_lt | apply escapeHtml_gt | apply escapeHtml_dq
    | apply escapeHtml_sq].
Qed.

(** ** Markup characters of a rendered row and of the page *)

Lemma countChar_escapeHtml (c : ascii) (s : string) :
  c ∈ markupChars → countChar c (escapeHtml s) = 0.
Proof.
  intros Hc. pose proof (escapeHtml_markup s) as H.
  rewrite Forall_forall in H. by apply H.
Qed.

Lemma countChar_selected (c : ascii) (current option_ : string) :
  c ∈ markupChars → countChar c (selected current option_) = 0.
Proof.
  intros Hc. unfold selected. destruct (String.eqb current option_); [|done].
  unfold markupChars in Hc. set_unfold.
  destruct Hc as [->|[->|[->|[->|[]]]]]; reflexivity.
Qed.

Lemma countChar_template_pointwise (c : ascii) (l1 l2 : list string) :
  Forall2 (λ a b, countChar c a = countChar c b) l1 l2 →
  countChar c (JS.template l1) = countChar c (JS.template l2).
Proof.
  induction 1 as [|a b l1 l2 Hab _ IH]; [done |].
  by rewrite !template_cons, !countChar_app, Hab, IH.
Qed.

Ltac same_markup :=
  apply countChar_template_pointwise;
  repeat (apply List.Forall2_cons;
          [first [ reflexivity
                 | by rewrite !countChar_escapeHtml
                 | by rewrite !countChar_selected
                 | eauto ] |]);
  apply List.Forall2_nil.

Lemma countChar_jobRow (c : ascii) (job job' : Job) :
  c ∈ markupChars → countChar c (jobRow job) = countChar c (jobRow job').
Proof. intros Hc. unfold jobRow. same_markup. Qed.

Lemma countChar_jobRows (c : ascii) (jobs : list Job) :
  c ∈ markupChars →
  countChar c (jobRows jobs) = countChar c (jobRows (replicate (length jobs) blankJob)).
Proof.
  intros Hc. unfold jobRows, JS.join.
  fold (JS.template (map jobRow jobs)).
  fold (JS.template (map jobRow (replicate (length jobs) blankJob))).
  induction jobs as [|j jobs IH]; [done |].
  cbn [map length replicate].
  by rewrite !template_cons, !countChar_app, IH, (countChar_jobRow c j blankJob).
Qed.

Lemma countChar_renderPage (c : ascii) (q q' : gmap string string)
    (err : string) (jobs : list Job) :
  c ∈ markupChars →
  countChar c (renderPage q err jobs)
  = countChar c (renderPage q' err (replicate (length jobs) blankJob)).
Proof.
  intros Hc. pose proof (countChar_jobRows c jobs Hc).
  unfold renderPage. same_markup.
Qed.

(** C10. Whatever the input, the output of [escapeHtml] contains none of
    the characters [<], [>], double quote and single quote. Hence the
    job fields and query-option values that the page interpolates through
    [escapeHtml] add no such character: a rendered row has as many of each
    as the row of a job with empty fields, and the page as many as the
    page of that many blank jobs with any other query options. *)
Theorem escapeHtml_output_has_no_markup :
  (∀ unsafe : string,
     Forall (λ c, countChar c (escapeHtml unsafe) = 0) markupChars)
  ∧ (∀ job : Job,
       Forall (λ c, countChar c (jobRow job) = countChar c (jobRow blankJob))
         markupChars)
  ∧ (∀ (q q' : gmap string string) (err : string) (jobs : list Job),
       Forall (λ c, countChar c (renderPage q err jobs)
                    = countChar c (renderPage q' err (replicate (length jobs) blankJob)))
         markupChars).
Proof.
  split; [apply escapeHtml_markup |].
  split; intros; apply Forall_forall; intros c Hc.
  - by apply countChar_jobRow.
  - by apply countChar_renderPage.
Qed.

(** ** Facts about [split], [substring] and [stripPrefix] *)

Section SplitFacts.

Lemma stripPrefix_Some (p s r : string) :
  stripPrefix p s = Some r ↔ s = p +:+ r.
Proof.
  revert s. induction p as [|a p IH]; intros s; simpl.
  - rewrite append_nil_l. split; [by intros [= ->] | by intros ->].
  - destruct s as [|b s]; [by rewrite append_cons |].
    rewrite append_cons. destruct (Ascii.eqb_spec a b) as [->|Hab].
    + rewrite IH. split; [by intros -> | by intros [= ->]].
    + split; [done | by intros [= ? _]].
Qed.

Lemma stripPrefix_app (p q s : string) :
  stripPrefix (p +:+ q) s = stripPrefix p s ≫= stripPrefix q.
Proof.
  revert s. induction p as [|a p IH]; intros s; [done |].
  rewrite append_cons. simpl. destruct s as [|b s]; [done |].
  destruct (Ascii.eqb a b); [apply IH | done].
Qed.

Lemma startsWith_substring (tok : string) :
  JS.startsWith "--" tok = true → tok = "--" +:+ JS.substring 2 tok.
Proof.
  destruct tok as [|a [|b tok]]; cbn [JS.startsWith JS.substring]; try done.
  - by rewrite andb_false_r.
  - destruct (Ascii.eqb_spec "-" a) as [<-|]; [|done].
    by destruct (Ascii.eqb_spec "-" b) as [<-|].
Qed.

Lemma startsWith_stripPrefix (x tok : string) :
  stripPrefix ("--" +:+ x) tok
  = if JS.startsWith "--" tok then stripPrefix x (JS.substring 2 tok)
    else None.
Proof.
  rewrite !append_cons, append_nil_l.
  destruct tok as [|a [|b tok]];
    cbn [JS.startsWith JS.substring stripPrefix]; try done.
  - rewrite andb_false_r. by destruct (Ascii.eqb "-" a).
  - destruct (Ascii.eqb "-" a); [|done].
    by destruct (Ascii.eqb "-" b).
Qed.

Lemma split_nonempty (sep : ascii) (s : string) : JS.split sep s ≠ [].
Proof.
  destruct s as [|a s]; simpl; [done |].
  destruct (Ascii.eqb a sep); [done |]. by destruct (JS.split sep s).
Qed.

(** The first piece of a split holds no separator, and the string is
    that piece alone or that piece, a separator and the rest. *)
Lemma split_inv (sep : ascii) (s k : string) (rest : list string) :
  JS.split sep s = k :: rest →
  countChar sep k = 0
  ∧ (rest = [] ∧ s = k
     ∨ ∃ r, s = k +:+ String sep r ∧ rest = JS.split sep r).
Proof.
  revert k rest. induction s as [|a s IH]; intros k rest; simpl.
  - intros [= <- <-]. auto.
  - destruct (Ascii.eqb_spec a sep) as [->|Hne].
    + intros [= <- <-]. split; [done |]. right. by exists s.
    + destruct (JS.split sep s) as [|piece pieces] eqn:E.
      * by destruct (split_nonempty sep s).
      * intros [= <- <-]. destruct (IH _ _ eq_refl) as [Hc Hs].
        split.
        { simpl. by destruct (Ascii.eqb_spec a sep). }
        destruct Hs as [[-> ->]|(r & -> & ->)]; [by left |].
        right. exists r. by rewrite append_cons.
Qed.

Lemma split_nosep (sep : ascii) (v : string) :
  countChar sep v = 0 → JS.split sep v = [v].
Proof.
  induction v as [|a v IH]; simpl; [done |].
  destruct (Ascii.eqb a sep); [done |]. intros H. by rewrite IH.
Qed.

Lemma split_app_sep (sep : ascii) (a b : string) :
  countChar sep a = 0 →
  JS.split sep (a +:+ String sep b) = a :: JS.split sep b.
Proof.
  induction a as [|x a IH].
  - intros _. rewrite append_nil_l. simpl. by rewrite Ascii.eqb_refl.
  - rewrite append_cons. simpl. destruct (Ascii.eqb x sep); [done |].
    intros H. by rewrite IH.
Qed.

(** Two separator-free prefixes of one string, each followed by the
    separator, are the same prefix. *)
Lemma sep_prefix_unique (sep : ascii) (a b r r' : string) :
  countChar sep a = 0 → countChar sep b = 0 →
  a +:+ String sep r = b +:+ String sep r' → a = b ∧ r = r'.
Proof.
  intros Ha Hb Heq.
  assert (JS.split sep (a +:+ String sep r)
          = JS.split sep (b +:+ String sep r')) as Hs by (by rewrite Heq).
  rewrite !split_app_sep in Hs by done.
  injection Hs as -> _. split; [done |].
  apply (inj (String.app b)) in Heq. by injection Heq.
Qed.

Lemma includes_decide (l : list string) (v : string) :
  JS.includes l v = bool_decide (v ∈ l).
Proof.
  unfold JS.includes. induction l as [|x l IH].
  - cbn [existsb]. by rewrite bool_decide_eq_false_2 by set_solver.
  - cbn [existsb]. rewrite IH.
    destruct (String.eqb_spec v x) as [->|Hne]; simpl.
    + by rewrite bool_decide_eq_true_2 by set_solver.
    + apply bool_decide_ext. rewrite elem_of_cons.
      split; [by right | by intros [?|?]].
Qed.

End SplitFacts.

(** ** Facts about the argument parser *)

Section ParserFacts.

Implicit Types (args : gmap string string) (tok key value : string).

Lemma Proc_bind_Ret_nil {A B : Type} (f : A → Proc B) (a : A) :
  Proc_bind f (Ret [] a) = f a.
Proof. unfold Proc_bind. by destruct (f a). Qed.

Lemma isHelpToken_eqb tok :
  String.eqb tok "--help" || String.eqb tok "-h" = isHelpToken tok.
Proof.
  unfold isHelpToken.
  destruct (String.eqb_spec tok "--help") as [->|H1]; [done |].
  destruct (String.eqb_spec tok "-h") as [->|H2]; [done |].
  symmetry. apply bool_decide_eq_false. by intros [?|?].
Qed.

(** A help token ends the process with the usage text. *)
Lemma loopBody_help tok args :
  isHelpToken tok = true →
  loopBody tok args = Exit [ConsoleLog usageText] 0.
Proof.
  intros H. unfold loopBody. by rewrite isHelpToken_eqb, H.
Qed.

(** Any other token is handled by the second [if] alone. *)
Lemma loopBody_other tok args :
  isHelpToken tok = false →
  loopBody tok args =
    if JS.startsWith "--" tok then
      match JS.split "=" (JS.substring 2 tok) with
      | key :: value :: _ =>
          if JS.truthy key then switchKey key value args
          else invalidFormat tok args
      | _ => invalidFormat tok args
      end
    else
      Ret [ConsoleWarn
             ("Unrecognized command-line argument: " +:+ JS.quoted tok
                +:+ ". Expected arguments to start with '--'. Ignoring.")]
        args.
Proof.
  intros H. unfold loopBody. rewrite isHelpToken_eqb, H.
  unfold mbind, Proc_mbind, mret, Proc_ret. rewrite Proc_bind_Ret_nil.
  destruct (JS.startsWith "--" tok); [|done].
  by destruct (JS.split "=" (JS.substring 2 tok)) as [|key [|value rest]].
Qed.

(** The switch on a free-form key, on an enumerated key and on an
    unknown key. The arrays of the enumerated cases are the union types
    of [interface QueryOptions]. *)
Lemma switchKey_recognized key value args :
  key ∈ recognizedKeys →
  switchKey key value args =
    if validFor key value then Ret [] (<[key := value]> args)
    else Ret [ConsoleWarn
                (invalidValueWarning key value
                   (default [] (enumeration key)))] args.
Proof.
  intros Hk. unfold recognizedKeys in Hk. cbn [map fst QueryOptions] in Hk.
  set_unfold.
  destruct Hk as [->|[->|[->|[->|[->|[->|[->|[->|[->|[]]]]]]]]]];
    try reflexivity;
    unfold switchKey, enumCase, validFor; cbn -[JS.includes elem_of];
    rewrite includes_decide; reflexivity.
Qed.

Lemma switchKey_unknown key value args :
  key ∉ recognizedKeys →
  switchKey key value args =
    Ret [ConsoleWarn
           ("Unknown command-line argument: --" +:+ key +:+ ". Ignoring.")]
      args.
Proof.
  intros Hk. unfold recognizedKeys in Hk. cbn [map fst QueryOptions] in Hk.
  unfold switchKey.
  repeat match goal with
         | |- context [String.eqb key ?k] =>
             destruct (String.eqb_spec key k) as [->|?];
             [exfalso; apply Hk; set_solver |]
         end.
  done.
Qed.

(** The switch changes at most the property named by its key. *)
Lemma switchKey_other key key' value args tr args' :
  switchKey key value args = Ret tr args' → key ≠ key' →
  args' !! key' = args !! key'.
Proof.
  intros H Hne. destruct (decide (key ∈ recognizedKeys)) as [Hk|Hk].
  - rewrite switchKey_recognized in H by done.
    destruct (validFor key value); injection H as _ <-; [|done].
    by rewrite lookup_insert_ne.
  - rewrite switchKey_unknown in H by done. by injection H as _ <-.
Qed.

Lemma recognizedKeys_plain key :
  key ∈ recognizedKeys → countChar "=" key = 0 ∧ JS.truthy key = true.
Proof.
  intros Hk. unfold recognizedKeys in Hk. cbn [map fst QueryOptions] in Hk.
  set_unfold.
  by destruct Hk as [->|[->|[->|[->|[->|[->|[->|[->|[->|[]]]]]]]]]].
Qed.

Lemma invalidFormat_Ret tok args :
  invalidFormat tok args
  = Ret [ConsoleWarn
           ("Invalid command-line argument format: " +:+ JS.quoted tok
              +:+ ". Expected --key=value. Ignoring.")] args.
Proof. reflexivity. Qed.

(** Every token but a help token lets the loop go on. *)
Lemma loopBody_total tok args :
  isHelpToken tok = false → ∃ tr args', loopBody tok args = Ret tr args'.
Proof.
  intros H. rewrite loopBody_other by done.
  destruct (JS.startsWith "--" tok); [|eauto].
  destruct (JS.split "=" (JS.substring 2 tok)) as [|key [|value rest]];
    [rewrite invalidFormat_Ret; eauto ..|].
  destruct (JS.truthy key); [|rewrite invalidFormat_Ret; eauto].
  destruct (decide (key ∈ recognizedKeys)).
  - rewrite switchKey_recognized by done.
    destruct (validFor key value); eauto.
  - rewrite switchKey_unknown by done. eauto.
Qed.

(** How a token reads as [--key=value] for a separator-free [key], in
    terms of the pieces the loop body splits it into. *)
Lemma overrideValue_split key tok :
  countChar "=" key = 0 →
  overrideValue key tok =
    if JS.startsWith "--" tok then
      match JS.split "=" (JS.substring 2 tok) with
      | k :: _ :: _ =>
          if decide (k = key)
          then stripPrefix (key +:+ "=") (JS.substring 2 tok)
          else None
      | _ => None
      end
    else None.
Proof.
  intros Hkey. unfold overrideValue. rewrite startsWith_stripPrefix.
  destruct (JS.startsWith "--" tok); [|done].
  generalize (JS.substring 2 tok). intros s.
  destruct (JS.split "=" s) as [|k rest] eqn:E;
    [by destruct (split_nonempty "=" s) |].
  destruct (split_inv _ _ _ _ E) as [Hk [[-> ->]|(r & -> & ->)]].
  - destruct (stripPrefix (key +:+ "=") k) as [v|] eqn:Ev; [|done].
    apply stripPrefix_Some in Ev. subst k.
    rewrite !countChar_app in Hk. simpl in Hk. lia.
  - destruct (JS.split "=" r) as [|v0 more] eqn:Er;
      [by destruct (split_nonempty "=" r) |].
    destruct (decide (k = key)) as [->|Hne]; [done |].
    destruct (stripPrefix _ _) as [v|] eqn:Ev; [|done].
    apply stripPrefix_Some in Ev. rewrite append_assoc in Ev.
    apply sep_prefix_unique in Ev as [-> _]; done.
Qed.

(** What one iteration does to the property [key], for a recognized
    [key] and a token whose value for it holds no further [=]. *)
Lemma loopBody_field key tok args tr args' :
  key ∈ recognizedKeys → plainFor key tok = true →
  loopBody tok args = Ret tr args' →
  match overrideValue key tok with
  | Some v =>
      if validFor key v then args' !! key = Some v
      else args' !! key = args !! key
           ∧ tr = [ConsoleWarn
                     (invalidValueWarning key v
                        (default [] (enumeration key)))]
  | None => args' !! key = args !! key
  end.
Proof.
  intros Hk Hplain Hbody.
  destruct (recognizedKeys_plain key Hk) as [Hsep Htruthy].
  unfold plainFor in Hplain.
  destruct (isHelpToken tok) eqn:Hhelp;
    [by rewrite loopBody_help in Hbody |].
  rewrite loopBody_other in Hbody by done.
  rewrite overrideValue_split in Hplain |- * by done.
  destruct (JS.startsWith "--" tok); [|by injection Hbody as _ <-].
  destruct (JS.split "=" (JS.substring 2 tok)) as [|k [|value rest]] eqn:E;
    [by injection Hbody as _ <- ..|].
  destruct (decide (k = key)) as [->|Hne].
  - rewrite Htruthy in Hbody.
    destruct (stripPrefix _ _) as [v|] eqn:Ev.
    + apply Nat.eqb_eq in Hplain.
      apply stripPrefix_Some in Ev.
      rewrite append_assoc, append_cons, append_nil_l in Ev.
      rewrite Ev, split_app_sep, split_nosep in E by done.
      injection E as <- <-.
      rewrite switchKey_recognized in Hbody by done.
      destruct (validFor key v); injection Hbody as <- <-; [|done].
      by rewrite lookup_insert_eq.
    + destruct (split_inv _ _ _ _ E) as [_ [[? _]|(r & Hr & _)]]; [done |].
      assert (stripPrefix (key +:+ "=") (JS.substring 2 tok) = Some r)
        by (apply stripPrefix_Some; by rewrite Hr, append_assoc).
      congruence.
  - destruct (JS.truthy k); [|by injection Hbody as _ <-].
    by eapply switchKey_other.
Qed.

(** A token that is neither a help token nor [--key=value] for a
    recognized key changes nothing. *)
Lemma loopBody_no_override tok args :
  isHelpToken tok = false → isOverrideToken tok = false →
  ∃ tr, loopBody tok args = Ret tr args.
Proof.
  intros Hhelp Hover. rewrite loopBody_other by done.
  destruct (JS.startsWith "--" tok) eqn:Hstart; [|eauto].
  destruct (JS.split "=" (JS.substring 2 tok)) as [|k [|value rest]] eqn:E;
    [rewrite invalidFormat_Ret; eauto ..|].
  destruct (JS.truthy k); [|rewrite invalidFormat_Ret; eauto].
  rewrite switchKey_unknown; [eauto |].
  intros Hk. destruct (recognizedKeys_plain k Hk) as [Hsep _].
  unfold isOverrideToken in Hover.
  apply not_true_iff_false in Hover. apply Hover.
  apply existsb_exists. exists k. split; [by apply list_elem_of_In |].
  apply bool_decide_eq_true. rewrite overrideValue_split, Hstart, E by done.
  rewrite decide_True by done.
  destruct (split_inv _ _ _ _ E) as [_ [[? _]|(r & -> & _)]]; [done |].
  exists r. apply stripPrefix_Some. by rewrite append_assoc.
Qed.

End ParserFacts.

(** ** The configuration resolver *)

Section Resolver.

Implicit Types (args : gmap string string) (toks : list string).

Lemma parseLoop_cons_Ret tok toks args tr args' :
  loopBody tok args = Ret tr args' →
  parseLoop (tok :: toks) args
  = match parseLoop toks args' with
    | Ret tr' a => Ret (tr ++ tr') a
    | Exit tr' code => Exit (tr ++ tr') code
    end.
Proof. intros H. simpl. unfold mbind, Proc_mbind, Proc_bind. by rewrite H. Qed.

Lemma parseLoop_cons_help tok toks args :
  isHelpToken tok = true →
  parseLoop (tok :: toks) args = Exit [ConsoleLog usageText] 0.
Proof.
  intros H. simpl. unfold mbind, Proc_mbind, Proc_bind.
  by rewrite loopBody_help.
Qed.

(** Without a help token the loop returns. *)
Lemma parseLoop_total toks args :
  forallb (λ tok, negb (isHelpToken tok)) toks = true →
  ∃ tr args', parseLoop toks args = Ret tr args'.
Proof.
  revert args. induction toks as [|tok toks IH]; intros args H.
  - by exists [], args.
  - cbn [forallb] in H. apply andb_true_iff in H as [Hh Hrest].
    apply negb_true_iff in Hh.
    destruct (loopBody_total tok args Hh) as (tr & args1 & Hbody).
    destruct (IH args1 Hrest) as (tr' & args' & Hloop).
    rewrite (parseLoop_cons_Ret _ _ _ _ _ Hbody), Hloop. eauto.
Qed.

(** An iteration that returns has printed warnings only. *)
Lemma loopBody_warns tok args tr args' :
  loopBody tok args = Ret tr args' →
  Forall (λ e, ∃ text, e = ConsoleWarn text) tr.
Proof.
  intros Hbody.
  destruct (isHelpToken tok) eqn:Htok;
    [by rewrite loopBody_help in Hbody |].
  rewrite loopBody_other in Hbody by done.
  destruct (JS.startsWith "--" tok);
    [|injection Hbody as <- _; repeat constructor; eauto].
  destruct (JS.split "=" (JS.substring 2 tok)) as [|k [|v rest]];
    [injection Hbody as <- _; repeat constructor; eauto ..|].
  destruct (JS.truthy k);
    [|injection Hbody as <- _; repeat constructor; eauto].
  destruct (decide (k ∈ recognizedKeys)).
  - rewrite switchKey_recognized in Hbody by done.
    destruct (validFor k v); injection Hbody as <- _;
      repeat constructor; eauto.
  - rewrite switchKey_unknown in Hbody by done.
    injection Hbody as <- _. repeat constructor; eauto.
Qed.

(** Whichever way the loop ends, it has only written to the console. *)
Lemma parseLoop_console toks args :
  forallb isConsole (trace (parseLoop toks args)) = true.
Proof.
  revert args. induction toks as [|tok toks IH]; intros args; [done |].
  destruct (isHelpToken tok) eqn:Htok;
    [by rewrite parseLoop_cons_help |].
  destruct (loopBody_total tok args Htok) as (tr & args1 & Hbody).
  rewrite (parseLoop_cons_Ret _ _ _ _ _ Hbody).
  specialize (IH args1).
  assert (forallb isConsole tr = true) as Htr.
  { apply forallb_forall. intros e He%list_elem_of_In.
    pose proof (loopBody_warns _ _ _ _ Hbody) as Hw.
    rewrite Forall_forall in Hw. by destruct (Hw e He) as [text ->]. }
  destruct (parseLoop toks args1); simpl in *;
    by rewrite forallb_app, Htr, IH.
Qed.

Lemma getEffectiveQueryOptions_console argv :
  forallb isConsole (trace (getEffectiveQueryOptions argv)) = true.
Proof.
  unfold getEffectiveQueryOptions, parseCommandLineArgs.
  pose proof (parseLoop_console (drop 2 argv) ∅) as H.
  destruct (parseLoop (drop 2 argv) ∅); simpl in *; [|done].
  by rewrite app_nil_r.
Qed.

(** With a help token the loop exits with status 0, the usage text
    being the last thing printed, after warnings only; the tokens after
    the first help token play no part. *)
Lemma parseLoop_help pre h post args :
  isHelpToken h = true →
  ∃ warnings,
    parseLoop (pre ++ h :: post) args
    = Exit (warnings ++ [ConsoleLog usageText]) 0
    ∧ parseLoop (pre ++ [h]) args
      = Exit (warnings ++ [ConsoleLog usageText]) 0
    ∧ Forall (λ e, ∃ text, e = ConsoleWarn text) warnings.
Proof.
  intros Hh. revert args. induction pre as [|tok pre IH]; intros args.
  - exists []. cbn [app]. by rewrite !parseLoop_cons_help.
  - cbn [app]. destruct (isHelpToken tok) eqn:Htok.
    + exists []. by rewrite !parseLoop_cons_help.
    + destruct (loopBody_total tok args Htok) as (tr & args1 & Hbody).
      destruct (IH args1) as (warnings & H1 & H2 & Hw).
      exists (tr ++ warnings).
      rewrite !(parseLoop_cons_Ret _ _ _ _ _ Hbody), H1, H2.
      rewrite <- !(assoc_L (++)). split_and!; [done | done |].
      apply Forall_app. split; [by eapply loopBody_warns | done].
Qed.

(** Without override tokens the loop returns the object it started from. *)
Lemma parseLoop_no_override toks args :
  forallb (λ tok, negb (isHelpToken tok)) toks = true →
  forallb (λ tok, negb (isOverrideToken tok)) toks = true →
  ∃ tr, parseLoop toks args = Ret tr args.
Proof.
  induction toks as [|tok toks IH]; intros Hh Ho; [by exists [] |].
  cbn [forallb] in Hh, Ho.
  apply andb_true_iff in Hh as [Hh Hhs], Ho as [Ho Hos].
  apply negb_true_iff in Hh, Ho.
  destruct (loopBody_no_override tok args Hh Ho) as (tr & Hbody).
  destruct (IH Hhs Hos) as (tr' & Hloop).
  rewrite (parseLoop_cons_Ret _ _ _ _ _ Hbody), Hloop. eauto.
Qed.

(** The loop is a last-write-wins fold: the property [key] ends up as
    the last valid override for [key], or as it started; every invalid
    value for [key] is warned about. *)
Lemma parseLoop_field key toks args tr args' :
  key ∈ recognizedKeys →
  forallb (plainFor key) toks = true →
  parseLoop toks args = Ret tr args' →
  args' !! key = match lastValidOverride key toks with
                 | Some v => Some v
                 | None => args !! key
                 end
  ∧ ∀ tok v, tok ∈ toks → overrideValue key tok = Some v →
             validFor key v = false →
             ConsoleWarn (invalidValueWarning key v
                            (default [] (enumeration key))) ∈ tr.
Proof.
  intros Hk. revert args tr.
  induction toks as [|tok toks IH]; intros args tr Hplain Hloop.
  - injection Hloop as <- <-. split; [done |]. by intros ?? ?%elem_of_nil.
  - cbn [forallb] in Hplain. apply andb_true_iff in Hplain as [Hp Hps].
    destruct (loopBody tok args) as [tr1 args1|] eqn:Hbody;
      [|simpl in Hloop; unfold mbind, Proc_mbind, Proc_bind in Hloop;
        by rewrite Hbody in Hloop].
    rewrite (parseLoop_cons_Ret _ _ _ _ _ Hbody) in Hloop.
    destruct (parseLoop toks args1) as [tr2 args2|] eqn:Hrest; [|done].
    injection Hloop as <- <-.
    destruct (IH _ _ Hps Hrest) as [Hfield Hwarn].
    pose proof (loopBody_field key tok args tr1 args1 Hk Hp Hbody) as Hone.
    split.
    + rewrite Hfield. cbn [lastValidOverride].
      destruct (lastValidOverride key toks); [done |].
      destruct (overrideValue key tok) as [v|]; [|done].
      destruct (validFor key v); [done | by destruct Hone].
    + intros tok' v [->|Hin]%elem_of_cons Hov Hinvalid.
      * rewrite Hov, Hinvalid in Hone. destruct Hone as [_ ->].
        apply elem_of_app. left. by apply list_elem_of_singleton.
      * apply elem_of_app. right. by eapply Hwarn.
Qed.

End Resolver.

Lemma defaultSet_hardcoded : list_to_map defaultSet = hardcodedDefaultOptions.
Proof. reflexivity. Qed.

(** The tokens singled out by [isOverrideToken] are those of the form
    [--key=value] with a recognized key. *)
Lemma isOverrideToken_shape (tok : string) :
  isOverrideToken tok = true
  ↔ ∃ key value, key ∈ recognizedKeys ∧ tok = "--" +:+ key +:+ "=" +:+ value.
Proof.
  unfold isOverrideToken, overrideValue. rewrite existsb_exists. split.
  - intros (key & Hk%list_elem_of_In & [value Hv]%bool_decide_eq_true).
    exists key, value. split; [done |].
    apply stripPrefix_Some in Hv. by rewrite !append_assoc in Hv.
  - intros (key & value & Hk & ->). exists key.
    split; [by apply list_elem_of_In |].
    apply bool_decide_eq_true. exists value.
    apply stripPrefix_Some. by rewrite !append_assoc.
Qed.

(** What [lastValidOverride] computes: the value of a valid override that
    no valid override follows, and nothing when every override is invalid. *)
Lemma lastValidOverride_last (key : string) (pre post : list string)
    (tok v : string) :
  overrideValue key tok = Some v → validFor key v = true →
  lastValidOverride key post = None →
  lastValidOverride key (pre ++ tok :: post) = Some v.
Proof.
  intros Hov Hvalid Hpost. induction pre as [|t pre IH]; cbn [app].
  - cbn [lastValidOverride]. by rewrite Hpost, Hov, Hvalid.
  - cbn [lastValidOverride]. by rewrite IH.
Qed.

Lemma lastValidOverride_None (key : string) (toks : list string) :
  lastValidOverride key toks = None
  ↔ ∀ tok v, tok ∈ toks → overrideValue key tok = Some v →
             validFor key v = false.
Proof.
  induction toks as [|t toks IH]; cbn [lastValidOverride].
  - split; [by intros _ ?? ?%elem_of_nil | done].
  - destruct (lastValidOverride key toks) as [w|] eqn:E.
    + split; [done |]. intros H. apply IH.
      intros tok v Hin. apply H. by apply elem_of_cons; right.
    + destruct IH as [IH _]. specialize (IH eq_refl). split.
      * intros Ht tok v [->|Hin]%elem_of_cons Hov; [|by eapply IH].
        rewrite Hov in Ht. by destruct (validFor key v).
      * intros H. destruct (overrideValue key t) as [v|] eqn:Hov; [|done].
        rewrite (H t v); [done | by apply elem_of_cons; left | done].
Qed.

(** Every field has a value after resolution. *)
Lemma resolved_fields_present (argv : list string) (tr : list Effect)
    (q : gmap string string) (key : string) :
  getEffectiveQueryOptions argv = Ret tr q →
  key ∈ recognizedKeys → is_Some (q !! key).
Proof.
  unfold getEffectiveQueryOptions.
  destruct (parseCommandLineArgs argv) as [w args|]; [|done].
  intros [= _ <-] Hk. rewrite lookup_union.
  assert (is_Some (hardcodedDefaultOptions !! key)) as [d ->].
  { unfold recognizedKeys in Hk. cbn [map fst QueryOptions] in Hk.
    set_unfold.
    by destruct Hk as [->|[->|[->|[->|[->|[->|[->|[->|[->|[]]]]]]]]]]. }
  by destruct (args !! key).
Qed.

(** C1. When no argument is a [--key=value] token for a recognized key,
    the resolved query options are exactly the default set (keyword
    [Vue.js, Angular], location [london], dateSincePosted [past Week],
    limit [100], sortBy [recent], the four others empty): whenever
    [getEffectiveQueryOptions] returns it returns that set, and it does
    return unless an argument is a help token. *)
Theorem defaults_without_overrides (argv : list string) :
  forallb (λ tok, negb (isOverrideToken tok)) (drop 2 argv) = true →
  (∀ tr q, getEffectiveQueryOptions argv = Ret tr q →
           q = list_to_map defaultSet)
  ∧ (forallb (λ tok, negb (isHelpToken tok)) (drop 2 argv) = true →
     ∃ tr, getEffectiveQueryOptions argv = Ret tr (list_to_map defaultSet)).
Proof.
  intros Ho. rewrite defaultSet_hardcoded.
  assert (forallb (λ tok, negb (isHelpToken tok)) (drop 2 argv) = true →
          ∃ tr, getEffectiveQueryOptions argv = Ret tr hardcodedDefaultOptions)
    as Hret.
  { intros Hh.
    destruct (parseLoop_no_override (drop 2 argv) ∅ Hh Ho) as (tr & Hloop).
    exists tr. unfold getEffectiveQueryOptions, parseCommandLineArgs.
    rewrite Hloop. unfold mbind, Proc_mbind, Proc_bind, mret, Proc_ret.
    by rewrite (left_id_L ∅ (∪)), app_nil_r. }
  split; [|done].
  intros tr q Hq.
  destruct (forallb (λ tok, negb (isHelpToken tok)) (drop 2 argv)) eqn:Hh.
  - destruct (Hret eq_refl) as (tr' & Hq'). congruence.
  - exfalso. apply not_true_iff_false in Hh. apply Hh.
    apply forallb_forall. intros tok Hin. apply negb_true_iff.
    destruct (isHelpToken tok) eqn:Htok; [|done]. exfalso.
    apply list_elem_of_In, list_elem_of_split in Hin as (pre & post & Hsplit).
    destruct (parseLoop_help pre tok post ∅ Htok) as (w & Hexit & _).
    unfold getEffectiveQueryOptions, parseCommandLineArgs in Hq.
    by rewrite Hsplit, Hexit in Hq.
Qed.

Lemma defaults_without_overrides_witness :
  ∃ tr, getEffectiveQueryOptions
          ["node"; "dist/server.js"; "--verbose"; "--colour=blue"; "london"]
        = Ret tr (list_to_map defaultSet).
Proof.
  apply (defaults_without_overrides
           ["node"; "dist/server.js"; "--verbose"; "--colour=blue"; "london"]);
    reflexivity.
Defined.

(** C2, as amended. For a recognized key and arguments without a help
    token in which no value given for the key holds a further [=], the
    resolved field is the value of the last token [--key=value] whose value
    is valid for the key, and the default when there is none; every token
    giving the key a value outside its enumeration is ignored with a
    warning that names the key, the value and the enumeration. *)
Theorem override_last_valid_wins (argv : list string) (key : string) :
  key ∈ recognizedKeys →
  forallb (λ tok, negb (isHelpToken tok)) (drop 2 argv) = true →
  forallb (plainFor key) (drop 2 argv) = true →
  ∃ tr q,
    getEffectiveQueryOptions argv = Ret tr q
    ∧ q !! key = match lastValidOverride key (drop 2 argv) with
                 | Some v => Some v
                 | None => hardcodedDefaultOptions !! key
                 end
    ∧ ∀ tok v, tok ∈ drop 2 argv → overrideValue key tok = Some v →
               validFor key v = false →
               ConsoleWarn (invalidValueWarning key v
                              (default [] (enumeration key))) ∈ tr.
Proof.
  intros Hk Hh Hplain.
  destruct (parseLoop_total (drop 2 argv) ∅ Hh) as (tr & args & Hloop).
  destruct (parseLoop_field key _ _ _ _ Hk Hplain Hloop) as [Hfield Hwarn].
  exists tr, (args ∪ hardcodedDefaultOptions).
  unfold getEffectiveQueryOptions, parseCommandLineArgs. rewrite Hloop.
  unfold mbind, Proc_mbind, Proc_bind, mret, Proc_ret. rewrite app_nil_r.
  split_and!; [done | | done].
  rewrite lookup_union, Hfield, lookup_empty.
  destruct (lastValidOverride key (drop 2 argv)); [|by rewrite (left_id_L None _)].
  by destruct (hardcodedDefaultOptions !! key).
Qed.

Lemma override_last_valid_wins_witness :
  ∃ tr q,
    getEffectiveQueryOptions
      ["node"; "dist/server.js"; "--sortBy=relevant"; "--keyword=React";
       "--sortBy=newest"; "--salary=1"] = Ret tr q
    ∧ q !! "sortBy" = Some "relevant"
    ∧ ConsoleWarn (invalidValueWarning "sortBy" "newest" ["recent"; "relevant"])
        ∈ tr.
Proof.
  destruct (override_last_valid_wins
              ["node"; "dist/server.js"; "--sortBy=relevant";
               "--keyword=React"; "--sortBy=newest"; "--salary=1"] "sortBy")
    as (tr & q & Hq & Hfield & Hwarn); [compute_done | reflexivity ..|].
  exists tr, q. split_and!; [done | done |].
  apply (Hwarn "--sortBy=newest"); [compute_done | reflexivity ..].
Defined.

(** C2, as stated, fails: after [--sortBy=relevant --sortBy=newest] the
    second token gives [sortBy] a value outside its enumeration, yet the
    resolved [sortBy] is [relevant], not the default [recent]. *)
Lemma override_claim_counterexample : ¬ overrideClaimAsStated.
Proof.
  intros Hclaim.
  destruct (getEffectiveQueryOptions
              ["node"; "dist/server.js"; "--sortBy=relevant"; "--sortBy=newest"])
    as [tr q|] eqn:Hq; [|done].
  specialize (Hclaim _ tr q "sortBy" "--sortBy=newest" "newest" Hq).
  destruct Hclaim as [Hfield _]; [compute_done | compute_done | reflexivity |].
  injection Hq as _ <-. by vm_compute in Hfield.
Qed.

(** A value that itself holds an [=] is cut at it: [split] keeps the
    second piece only. *)
Example override_value_cut_at_equals :
  overrideValue "keyword" "--keyword=a=b" = Some "a=b"
  ∧ ∃ tr q,
      getEffectiveQueryOptions ["node"; "dist/server.js"; "--keyword=a=b"]
      = Ret tr q
      ∧ q !! "keyword" = Some "a" ∧ tr = [].
Proof. split; [reflexivity |]. eexists _, _. by split_and!. Qed.

(** C3. With [--help] or [-h] anywhere among the arguments, the
    [listening] callback prints the usage text last and leaves the process
    exited with status 0; everything it did before is console output, so no
    query was sent and no browser opened; the tokens after the help token
    play no part; and the exited process takes no further input. *)
Theorem help_exits_before_fetch (node script : string)
    (pre post : list string) (port : option string) :
  Forall
    (λ h,
       let env := {| argv := node :: script :: pre ++ h :: post;
                     envPORT := port |} in
       let exited := {| server := initialServer; phase := Exited 0 |} in
       ∃ tr,
         step env boot Listening = Some (exited, tr ++ [ConsoleLog usageText])
         ∧ forallb isConsole tr = true
         ∧ step {| argv := node :: script :: pre ++ [h]; envPORT := port |}
             boot Listening
           = Some (exited, tr ++ [ConsoleLog usageText])
         ∧ ∀ i, step env exited i = None)
    ["--help"; "-h"].
Proof.
  assert (∀ h, isHelpToken h = true →
    let env := {| argv := node :: script :: pre ++ h :: post;
                  envPORT := port |} in
    let exited := {| server := initialServer; phase := Exited 0 |} in
    ∃ tr,
      step env boot Listening = Some (exited, tr ++ [ConsoleLog usageText])
      ∧ forallb isConsole tr = true
      ∧ step {| argv := node :: script :: pre ++ [h]; envPORT := port |}
          boot Listening
        = Some (exited, tr ++ [ConsoleLog usageText])
      ∧ ∀ i, step env exited i = None) as Hhelp.
  { intros h Hh env exited.
    destruct (parseLoop_help pre h post ∅ Hh) as (w & H1 & H2 & Hw).
    exists (ConsoleLog ("Server running on http://localhost:" +:+ PORT env) :: w).
    assert (∀ rest, parseLoop (pre ++ h :: rest) ∅
                    = Exit (w ++ [ConsoleLog usageText]) 0 →
            step {| argv := node :: script :: pre ++ h :: rest;
                    envPORT := port |} boot Listening
            = Some (exited,
                    (ConsoleLog ("Server running on http://localhost:"
                                   +:+ PORT env) :: w)
                      ++ [ConsoleLog usageText])) as Hstep.
    { intros rest Hrest.
      unfold step. cbn [boot phase server dispatch].
      unfold onListening, getEffectiveQueryOptions, parseCommandLineArgs.
      cbn [argv drop]. rewrite drop_0, Hrest.
      reflexivity. }
    split_and!; [by apply Hstep | | by apply Hstep | by intros []].
    cbn [forallb isConsole ConsoleLog andb]. apply forallb_forall.
    intros e He. apply list_elem_of_In in He.
    rewrite Forall_forall in Hw. by destruct (Hw e He) as [text ->]. }
  repeat constructor; by apply Hhelp.
Qed.

(** ** The event loop *)

Section EventLoop.

Variable env : Environment.

Implicit Types (p : Process) (i : Input) (tr : list Effect).

Lemma launchedUrls_app tr1 tr2 :
  launchedUrls (tr1 ++ tr2) = launchedUrls tr1 ++ launchedUrls tr2.
Proof. apply omap_app. Qed.

Lemma launchedUrls_console tr :
  forallb isConsole tr = true → launchedUrls tr = [].
Proof.
  induction tr as [|e tr IH]; [done |].
  cbn [forallb]. intros [He Htr]%andb_true_iff.
  destruct e; try done. by apply IH.
Qed.

(** The handler of [GET /]: it leaves the server as it is, and unless
    the arguments hold a help token it sends the page of the cache, after
    the warnings of the argument parser. *)
Lemma getRoot_cases (s : Server) :
  (∃ warnings q,
     getEffectiveQueryOptions (argv env) = Ret warnings q
     ∧ getRoot env s
       = Ret (warnings
              ++ [Send (renderPage q (cachedErrorMessage s) (cachedJobs s))])
           s)
  ∨ (∃ tr code,
       getEffectiveQueryOptions (argv env) = Exit tr code
       ∧ getRoot env s = Exit tr code).
Proof.
  unfold getRoot.
  destruct (getEffectiveQueryOptions (argv env)) as [w q|w code];
    [left | right]; eauto.
Qed.

Lemma getRoot_launches (s : Server) :
  launchedUrls (trace (getRoot env s)) = [].
Proof.
  pose proof (getEffectiveQueryOptions_console (argv env)) as Hc.
  destruct (getRoot_cases s) as [(w & q & Hq & ->)|(w & code & Hq & ->)];
    rewrite Hq in Hc; simpl in *.
  - by rewrite launchedUrls_app, launchedUrls_console.
  - by apply launchedUrls_console.
Qed.

(** What one turn of the event loop can do. A settlement is taken only
    while the query is pending: it sets the completion flag and launches
    the browser once, at the base URL. Any other input leaves the three
    variables as they are and launches nothing. *)
Lemma step_cases p i p' tr :
  step env p i = Some (p', tr) →
  if isSettlement i
  then phase p = QueryPending ∧ phase p' = OpenPending
       ∧ isInitialFetchComplete (server p') = true
       ∧ launchedUrls tr = [baseUrl env]
  else server p' = server p ∧ launchedUrls tr = []
       ∧ (earlyPhase (phase p') = true → earlyPhase (phase p) = true).
Proof.
  unfold step. destruct p as [s ph].
  pose proof (getRoot_launches s) as Hget.
  pose proof (getEffectiveQueryOptions_console (argv env)) as Hc.
  destruct ph, i as [|r|e| |err|];
    cbn [dispatch phase server isSettlement]; try done.
  - unfold onListening.
    destruct (getEffectiveQueryOptions (argv env)) as [w q|w code];
      intros [= <- <-]; cbn in Hc |- *; split_and!; try done;
      by rewrite ?launchedUrls_app, launchedUrls_console.
  - destruct r; intros [= <- <-]; by split_and!.
  - unfold onQueryRejected. destruct (isRateLimited e);
      intros [= <- <-]; by split_and!.
  - destruct (getRoot_cases s) as [(w & q & _ & Hr)|(w & code & _ & Hr)];
      rewrite Hr in Hget |- *; intros [= <- <-]; by split_and!.
  - intros [= <- <-]. by split_and!.
  - intros [= <- <-]. by split_and!.
  - destruct (getRoot_cases s) as [(w & q & _ & Hr)|(w & code & _ & Hr)];
      rewrite Hr in Hget |- *; intros [= <- <-]; by split_and!.
  - destruct (getRoot_cases s) as [(w & q & _ & Hr)|(w & code & _ & Hr)];
      rewrite Hr in Hget |- *; intros [= <- <-]; by split_and!.
Qed.

(** *** Runs *)

Lemma run_cons_Some p i rest p2 tr :
  run env p (i :: rest) = Some (p2, tr) →
  ∃ p1 t1 t2, step env p i = Some (p1, t1)
              ∧ run env p1 rest = Some (p2, t2) ∧ tr = t1 ++ t2.
Proof.
  cbn [run]. destruct (step env p i) as [[p1 t1]|] eqn:Hs; [|done].
  destruct (run env p1 rest) as [[p2' t2]|] eqn:Hr; [|done].
  intros [= <- <-]. by exists p1, t1, t2.
Qed.

Lemma run_app_Some p a b p2 tr :
  run env p (a ++ b) = Some (p2, tr) →
  ∃ p1 t1 t2, run env p a = Some (p1, t1)
              ∧ run env p1 b = Some (p2, t2) ∧ tr = t1 ++ t2.
Proof.
  revert p tr. induction a as [|i a IH]; intros p tr H.
  - by exists p, [], tr.
  - cbn [app] in H. apply run_cons_Some in H as (p1 & t1 & t2 & Hs & Hr & ->).
    apply IH in Hr as (p1' & t1' & t2' & Ha & Hb & ->).
    exists p1', (t1 ++ t1'), t2'. cbn [run]. rewrite Hs, Ha.
    by rewrite (assoc_L (++)).
Qed.

(** Inputs other than a settlement change neither the three variables
    nor the number of browser launches, and do not go back to an early
    phase. *)
Lemma run_quiet p0 inputs p tr :
  existsb isSettlement inputs = false →
  run env p0 inputs = Some (p, tr) →
  server p = server p0 ∧ launchedUrls tr = []
  ∧ (earlyPhase (phase p) = true → earlyPhase (phase p0) = true).
Proof.
  revert p0 tr. induction inputs as [|i inputs IH]; intros p0 tr Hq H.
  - by injection H as <- <-.
  - cbn [existsb] in Hq. apply orb_false_iff in Hq as [Hi Hq].
    apply run_cons_Some in H as (p1 & t1 & t2 & Hs & Hr & ->).
    apply step_cases in Hs. rewrite Hi in Hs.
    destruct Hs as (Hs1 & Hl1 & He1).
    destruct (IH _ _ Hq Hr) as (Hs2 & Hl2 & He2).
    rewrite launchedUrls_app, Hl1, Hl2. split_and!; [congruence | done | auto].
Qed.

(** Past the early phases no settlement is taken any more. *)
Lemma run_late p0 inputs p tr :
  earlyPhase (phase p0) = false →
  run env p0 inputs = Some (p, tr) →
  existsb isSettlement inputs = false.
Proof.
  revert p0 tr. induction inputs as [|i inputs IH]; intros p0 tr Hlate H;
    [done |].
  apply run_cons_Some in H as (p1 & t1 & t2 & Hs & Hr & ->).
  apply step_cases in Hs. cbn [existsb].
  destruct (isSettlement i).
  - destruct Hs as (Hph & _). by rewrite Hph in Hlate.
  - destruct Hs as (_ & _ & He). apply (IH p1 t2); [|done].
    destruct (earlyPhase (phase p1)); [|done]. rewrite He in Hlate; done.
Qed.

(** A run through a settlement: the settlement found the variables
    as they were initialized, later inputs left them as the settlement
    set them, and the browser was launched by the settlement alone. *)
Lemma run_boot_split pre i post p tr :
  run env boot (pre ++ i :: post) = Some (p, tr) →
  isSettlement i = true →
  ∃ p2 t1 t2 t3,
    step env {| server := initialServer; phase := QueryPending |} i
    = Some (p2, t2)
    ∧ server p = server p2 ∧ tr = t1 ++ t2 ++ t3
    ∧ launchedUrls t1 = [] ∧ launchedUrls t3 = []
    ∧ existsb isSettlement pre = false ∧ existsb isSettlement post = false
    ∧ earlyPhase (phase p) = false.
Proof.
  intros H Hi.
  apply run_app_Some in H as (p1 & t1 & t23 & Hpre & H & ->).
  apply run_cons_Some in H as (p2 & t2 & t3 & Hstep & Hpost & ->).
  pose proof (step_cases _ _ _ _ Hstep) as Hc. rewrite Hi in Hc.
  destruct Hc as (Hph1 & Hph2 & _).
  assert (existsb isSettlement pre = false) as Hquiet.
  { destruct (existsb isSettlement pre) eqn:E; [|done]. exfalso.
    apply existsb_exists in E as (j & Hj%list_elem_of_In & Hsj).
    apply list_elem_of_split in Hj as (a & b & ->).
    apply run_app_Some in Hpre as (q1 & u1 & u2 & _ & Hpre & _).
    apply run_cons_Some in Hpre as (q2 & v1 & v2 & Hsq & Hrq & _).
    apply step_cases in Hsq. rewrite Hsj in Hsq.
    destruct Hsq as (_ & Hq2 & _).
    assert (earlyPhase (phase q2) = false) as Hlate by (by rewrite Hq2).
    pose proof (run_late _ _ _ _ Hlate Hrq) as Hb.
    destruct (run_quiet _ _ _ _ Hb Hrq) as (_ & _ & He).
    rewrite Hph1 in He. rewrite He in Hlate; done. }
  destruct (run_quiet _ _ _ _ Hquiet Hpre) as (Hs1 & Hl1 & _).
  assert (earlyPhase (phase p2) = false) as Hlate2 by (by rewrite Hph2).
  pose proof (run_late _ _ _ _ Hlate2 Hpost) as Hquiet'.
  destruct (run_quiet _ _ _ _ Hquiet' Hpost) as (Hs3 & Hl3 & He3).
  exists p2, t1, t2, t3. destruct p1 as [s1 ph1]. cbn in Hs1, Hph1.
  subst s1 ph1. split_and!; try done.
  destruct (earlyPhase (phase p)); [|done]. rewrite He3 in Hlate2; done.
Qed.

(** A run without a settlement. *)
Lemma run_boot_unsettled inputs p tr :
  run env boot inputs = Some (p, tr) →
  existsb isSettlement inputs = false →
  server p = initialServer ∧ launchedUrls tr = [].
Proof.
  intros H Hq. by destruct (run_quiet _ _ _ _ Hq H) as (-> & -> & _).
Qed.

Lemma first_settlement inputs :
  existsb isSettlement inputs = true →
  ∃ pre i post, inputs = pre ++ i :: post ∧ isSettlement i = true.
Proof.
  intros (i & Hi%list_elem_of_In & Hs)%existsb_exists.
  apply list_elem_of_split in Hi as (pre & post & ->). eauto.
Qed.

(** Once the process has taken an input other than [listening] and has
    not exited, the arguments are known to resolve. *)
Lemma run_boot_resolves inputs p tr :
  run env boot inputs = Some (p, tr) →
  phase p ≠ Booting → (∀ code, phase p ≠ Exited code) →
  ∃ warnings q, getEffectiveQueryOptions (argv env) = Ret warnings q.
Proof.
  intros H Hb He. destruct inputs as [|i rest];
    [by injection H as <- _ |].
  apply run_cons_Some in H as (p1 & t1 & t2 & Hs & Hr & _).
  destruct i; try done. unfold step in Hs.
  cbn [boot phase dispatch server] in Hs. unfold onListening in Hs.
  destruct (getEffectiveQueryOptions (argv env)) as [w q|w code]; [eauto |].
  injection Hs as <- _. destruct rest as [|j rest].
  - injection Hr as <- _. by destruct (He code).
  - by destruct j.
Qed.

Lemma step_GetRoot p p' tr :
  step env p GetRoot = Some (p', tr) →
  server p' = server p ∧ tr = trace (getRoot env (server p)).
Proof.
  unfold step. destruct p as [s ph].
  destruct ph; cbn [dispatch phase server]; try done;
    destruct (getRoot_cases s) as [(w & q & _ & Hr)|(w & code & _ & Hr)];
    rewrite Hr; by intros [= <- <-].
Qed.

End EventLoop.

(** ** The page holds the rows of the cache *)

Lemma template_app (l1 l2 : list string) :
  JS.template (l1 ++ l2) = JS.template l1 +:+ JS.template l2.
Proof.
  induction l1 as [|x l1 IH]; [done |].
  cbn [app]. by rewrite !template_cons, IH, append_assoc.
Qed.

Lemma renderPage_contains_rows (q : gmap string string) (err : string)
    (jobs : list Job) :
  contains (jobRows jobs) (renderPage q err jobs).
Proof.
  unfold renderPage.
  match goal with
  | |- contains _ (JS.template ?l) =>
      change l with (take 57 l ++ jobRows jobs :: drop 58 l)
  end.
  rewrite template_app, template_cons. by eexists _, _.
Qed.

(** ** The startup fetch and its cache *)

(** C4. When the collaborator resolves with a sequence of job records,
    every later state of the process caches exactly that sequence, in the
    same order and of the same length, and the cached error message is
    empty. *)
Theorem cached_jobs_verbatim (env : Environment) (pre post : list Input)
    (jobs : list Job) (p : Process) (tr : list Effect) :
  run env boot (pre ++ QueryFulfilled (RespArray jobs) :: post) = Some (p, tr) →
  cachedJobs (server p) = jobs
  ∧ length (cachedJobs (server p)) = length jobs
  ∧ cachedErrorMessage (server p) = EmptyString.
Proof.
  intros H.
  apply run_boot_split in H as (p2 & t1 & t2 & t3 & Hstep & Hp & _); [|done].
  rewrite Hp. by injection Hstep as <- _.
Qed.

Lemma cached_jobs_verbatim_witness :
  ∃ p tr,
    run exampleEnv boot
      ([Listening]
       ++ QueryFulfilled (RespArray [exampleJob "2"; exampleJob "1";
                                     exampleJob "2"])
       :: [OpenFulfilled]) = Some (p, tr)
    ∧ cachedJobs (server p) = [exampleJob "2"; exampleJob "1"; exampleJob "2"]
    ∧ length (cachedJobs (server p)) = 3
    ∧ cachedErrorMessage (server p) = EmptyString.
Proof.
  destruct (run exampleEnv boot _) as [[p tr]|] eqn:Hrun;
    [|by vm_compute in Hrun].
  exists p, tr. split; [done |].
  exact (cached_jobs_verbatim exampleEnv [Listening] [OpenFulfilled]
           [exampleJob "2"; exampleJob "1"; exampleJob "2"] p tr Hrun).
Defined.

(** C5. When the collaborator resolves with anything but a sequence, every
    later state of the process holds the fixed diagnostic message, which
    contains [No jobs found], and an empty job cache. *)
Theorem non_array_response_fails (env : Environment) (pre post : list Input)
    (response : ApiResponse) (p : Process) (tr : list Effect) :
  isArray response = false →
  run env boot (pre ++ QueryFulfilled response :: post) = Some (p, tr) →
  cachedErrorMessage (server p)
  = "No jobs found or unexpected API response format during initial fetch."
  ∧ contains "No jobs found" (cachedErrorMessage (server p))
  ∧ cachedJobs (server p) = [].
Proof.
  intros Hshape H.
  apply run_boot_split in H as (p2 & t1 & t2 & t3 & Hstep & Hp & _); [|done].
  rewrite Hp. clear Hp.
  assert (server p2
          = {| cachedJobs := [];
               cachedErrorMessage :=
                 "No jobs found or unexpected API response format during initial fetch.";
               isInitialFetchComplete := true |}) as ->.
  { destruct response; try done; by injection Hstep as <- _. }
  split_and!; [done | | done].
  by exists EmptyString,
    " or unexpected API response format during initial fetch.".
Qed.

Lemma non_array_response_fails_witness :
  ∃ p tr,
    run exampleEnv boot
      ([Listening]
       ++ QueryFulfilled (RespObject [("status", "ok")]) :: [OpenFulfilled])
    = Some (p, tr)
    ∧ contains "No jobs found" (cachedErrorMessage (server p))
    ∧ cachedJobs (server p) = [].
Proof.
  destruct (run exampleEnv boot _) as [[p tr]|] eqn:Hrun;
    [|by vm_compute in Hrun].
  exists p, tr. split; [done |].
  exact (proj2 (non_array_response_fails exampleEnv [Listening]
                  [OpenFulfilled] (RespObject [("status", "ok")]) p tr
                  eq_refl Hrun)).
Defined.

(** C6. When the collaborator rejects with an error that carries a
    message and a response of status 429, every later state of the process
    holds an error message that contains the collaborator's message and
    ends with the rate-limit hint. *)
Theorem rate_limit_hint_appended (env : Environment) (pre post : list Input)
    (msg : string) (p : Process) (tr : list Effect) :
  run env boot (pre ++ QueryRejected (rateLimited msg) :: post) = Some (p, tr) →
  cachedErrorMessage (server p)
  = "Failed to fetch jobs during initial startup: "
      +:+ JS.orElse msg "Unknown error"
      +:+ ". Please check your connection or API limits." +:+ rateLimitHint
  ∧ contains msg (cachedErrorMessage (server p))
  ∧ contains rateLimitHint (cachedErrorMessage (server p))
  ∧ (∃ before, cachedErrorMessage (server p) = before +:+ rateLimitHint)
  ∧ cachedJobs (server p) = [].
Proof.
  intros H.
  apply run_boot_split in H as (p2 & t1 & t2 & t3 & Hstep & Hp & _); [|done].
  rewrite Hp. clear Hp.
  injection Hstep as <- _. cbn [server cachedErrorMessage cachedJobs message
                                  rateLimited JS.orElseOpt].
  rewrite !append_assoc.
  split_and!; [done | | | | done].
  - unfold JS.orElse, JS.truthy.
    destruct (String.eqb_spec msg EmptyString) as [->|_]; cbn [negb].
    + by eexists EmptyString, _.
    + by eexists _, _.
  - eexists _, EmptyString. rewrite append_empty_r.
    by rewrite <- !append_assoc.
  - eexists. by rewrite <- !append_assoc.
Qed.

Lemma rate_limit_hint_appended_witness :
  ∃ p tr,
    run exampleEnv boot
      ([Listening]
       ++ QueryRejected (rateLimited "Request failed with status code 429")
       :: [OpenFulfilled]) = Some (p, tr)
    ∧ contains "Request failed with status code 429"
        (cachedErrorMessage (server p))
    ∧ contains rateLimitHint (cachedErrorMessage (server p)).
Proof.
  destruct (run exampleEnv boot _) as [[p tr]|] eqn:Hrun;
    [|by vm_compute in Hrun].
  exists p, tr. split; [done |].
  destruct (rate_limit_hint_appended exampleEnv [Listening] [OpenFulfilled]
              "Request failed with status code 429" p tr Hrun)
    as (_ & Hmsg & Hhint & _).
  by split.
Defined.

(** The completion flag is set exactly by the settlement of the query. *)
Lemma flag_iff_settled (env : Environment) (inputs : list Input)
    (p : Process) (tr : list Effect) :
  run env boot inputs = Some (p, tr) →
  isInitialFetchComplete (server p) = existsb isSettlement inputs.
Proof.
  intros H. destruct (existsb isSettlement inputs) eqn:E.
  - destruct (first_settlement _ E) as (pre & i & post & -> & Hi).
    apply run_boot_split in H as (p2 & t1 & t2 & t3 & Hstep & Hp & _);
      [|done].
    apply step_cases in Hstep. rewrite Hi in Hstep. rewrite Hp. tauto.
  - by destruct (run_boot_unsettled _ _ _ _ H E) as [-> _].
Qed.

Lemma failure_message_nonempty (error : ApiError) (s p : Server)
    (tr : list Effect) :
  onQueryRejected error s = Ret tr p → cachedErrorMessage p ≠ EmptyString.
Proof.
  unfold onQueryRejected.
  destruct (isRateLimited error); by intros [= _ <-].
Qed.

(** C7, as amended. In every reachable state at most one of the job cache
    and the error message is non-empty; while the fetch has not completed
    both are empty; once it has completed both are empty exactly when the
    collaborator resolved with the empty sequence; and from then on no
    input changes the three variables. *)
Theorem outcome_exclusive_and_final (env : Environment)
    (inputs : list Input) (p : Process) (tr : list Effect) :
  run env boot inputs = Some (p, tr) →
  (cachedJobs (server p) = [] ∨ cachedErrorMessage (server p) = EmptyString)
  ∧ (isInitialFetchComplete (server p) = false →
     cachedJobs (server p) = []
     ∧ cachedErrorMessage (server p) = EmptyString)
  ∧ (isInitialFetchComplete (server p) = true →
     (cachedJobs (server p) = []
      ∧ cachedErrorMessage (server p) = EmptyString
      ↔ QueryFulfilled (RespArray []) ∈ inputs))
  ∧ (isInitialFetchComplete (server p) = true →
     ∀ more p' tr', run env p more = Some (p', tr') → server p' = server p).
Proof.
  intros H. rewrite (flag_iff_settled _ _ _ _ H).
  destruct (existsb isSettlement inputs) eqn:E.
  - destruct (first_settlement _ E) as (pre & i & post & -> & Hi).
    apply run_boot_split in H
      as (p2 & t1 & t2 & t3 & Hstep & Hp & _ & _ & _ & Hpre & Hpost & Hlate);
      [|done].
    rewrite Hp.
    assert (∀ j, isSettlement j = true → j ∈ pre ++ i :: post → j = i) as Hone.
    { intros j Hj [Hin|[->|Hin]%elem_of_cons]%elem_of_app; [|done |].
      - apply not_true_iff_false in Hpre. destruct Hpre.
        apply existsb_exists. exists j. by rewrite <- list_elem_of_In.
      - apply not_true_iff_false in Hpost. destruct Hpost.
        apply existsb_exists. exists j. by rewrite <- list_elem_of_In. }
    assert (i ∈ pre ++ i :: post) as Hin
        by (apply elem_of_app; right; apply elem_of_cons; by left).
    split_and!; [| done | |].
    + destruct i as [|r|e| | |]; try done.
      * destruct r; injection Hstep as <- _; auto.
      * unfold step in Hstep. cbn [dispatch phase server] in Hstep.
        unfold onQueryRejected in Hstep.
        destruct (isRateLimited e); injection Hstep as <- _; auto.
    + intros _. split.
      * intros [Hjobs Hmsg]. destruct i as [|r|e| | |]; try done.
        -- destruct r; injection Hstep as <- _; cbn in Hjobs, Hmsg; try done.
           by subst.
        -- unfold step in Hstep. cbn [dispatch phase server] in Hstep.
           unfold onQueryRejected in Hstep.
           destruct (isRateLimited e); injection Hstep as <- _; done.
      * intros Hempty. apply Hone in Hempty; [|done]. subst i.
        by injection Hstep as <- _.
    + intros _ more p' tr' Hmore.
      pose proof (run_late _ _ _ _ _ Hlate Hmore) as Hquiet.
      destruct (run_quiet _ _ _ _ _ Hquiet Hmore) as (Hs & _). by rewrite Hs.
  - destruct (run_boot_unsettled _ _ _ _ H E) as [-> _].
    split_and!; [by left | done | done | done].
Qed.

Lemma outcome_exclusive_and_final_witness :
  ∃ p tr,
    run exampleEnv boot
      [Listening; QueryFulfilled (RespArray [exampleJob "1"]); OpenFulfilled]
    = Some (p, tr)
    ∧ (cachedJobs (server p) = [] ∨ cachedErrorMessage (server p) = EmptyString)
    ∧ ∀ more p' tr', run exampleEnv p more = Some (p', tr') →
                     server p' = server p.
Proof.
  destruct (run exampleEnv boot _) as [[p tr]|] eqn:Hrun;
    [|by vm_compute in Hrun].
  exists p, tr. split; [done |].
  destruct (outcome_exclusive_and_final exampleEnv _ p tr Hrun)
    as (Hexcl & _ & _ & Hfinal).
  split; [done |]. apply Hfinal.
  vm_compute in Hrun. by injection Hrun as <- _.
Defined.

(** C7, as stated, fails: after the collaborator has resolved with the
    empty sequence the fetch has completed and both caches are empty. *)
Lemma outcome_claim_counterexample : ¬ outcomeClaimAsStated.
Proof.
  intros Hclaim.
  destruct (run exampleEnv boot [Listening; QueryFulfilled (RespArray [])])
    as [[p tr]|] eqn:Hrun; [|by vm_compute in Hrun].
  specialize (Hclaim _ _ _ _ Hrun).
  vm_compute in Hrun. injection Hrun as <- _.
  by specialize (Hclaim eq_refl eq_refl).
Qed.

(** C8. In every run the browser is launched exactly once, at the base
    URL of the server, if the query has settled (whichever way), and not
    at all before; the completion flag tells the two apart. When the launch
    fails the failure is written to the error console, the process reaches
    the same state as after a successful launch, and [GET /] is answered
    from the cache as before. *)
Theorem browser_opened_once (env : Environment) (inputs : list Input)
    (p : Process) (tr : list Effect) :
  run env boot inputs = Some (p, tr) →
  isInitialFetchComplete (server p) = existsb isSettlement inputs
  ∧ launchedUrls tr
    = (if existsb isSettlement inputs then [baseUrl env] else [])
  ∧ (phase p = OpenPending →
     ∀ err,
       let idle := {| server := server p; phase := Idle |} in
       step env p (OpenRejected err)
       = Some (idle, [Console ErrorLevel
                        [Text "Failed to open browser:"; OpenFailure err]])
       ∧ (∃ tr', step env p OpenFulfilled = Some (idle, tr'))
       ∧ ∃ warnings q,
           step env idle GetRoot
           = Some (idle,
                   warnings
                   ++ [Send (renderPage q (cachedErrorMessage (server p))
                               (cachedJobs (server p)))])).
Proof.
  intros H. split; [by eapply flag_iff_settled |]. split.
  - destruct (existsb isSettlement inputs) eqn:E.
    + destruct (first_settlement _ E) as (pre & i & post & -> & Hi).
      apply run_boot_split in H
        as (p2 & t1 & t2 & t3 & Hstep & _ & -> & Hl1 & Hl3 & _); [|done].
      apply step_cases in Hstep. rewrite Hi in Hstep.
      destruct Hstep as (_ & _ & _ & Hl2).
      by rewrite !launchedUrls_app, Hl1, Hl2, Hl3.
    + by destruct (run_boot_unsettled _ _ _ _ H E) as [_ ->].
  - intros Hph err idle.
    destruct (run_boot_resolves _ _ _ _ H) as (w & q & Hq);
      [by rewrite Hph | by rewrite Hph |].
    destruct p as [s ph]. cbn in Hph. subst ph. split_and!.
    + done.
    + by eexists.
    + exists w, q. unfold step. cbn [dispatch phase server idle].
      destruct (getRoot_cases env s) as [(w' & q' & Hq' & ->)|(? & ? & Hq' & _)];
        rewrite Hq in Hq'; [|done]. by injection Hq' as <- <-.
Qed.

Lemma browser_opened_once_witness :
  ∃ p tr,
    run exampleEnv boot
      [Listening; QueryRejected (rateLimited "timeout"); OpenRejected "ENOENT"]
    = Some (p, tr)
    ∧ isInitialFetchComplete (server p) = true
    ∧ launchedUrls tr = ["http://localhost:3000"].
Proof.
  destruct (run exampleEnv boot _) as [[p tr]|] eqn:Hrun;
    [|by vm_compute in Hrun].
  exists p, tr. split; [done |].
  destruct (browser_opened_once exampleEnv _ p tr Hrun) as (Hflag & Hurls & _).
  by split.
Defined.

(** C9. Two [GET /] requests served from the same cached state, with the
    same arguments, have the same effects, the response included, and each
    leaves the three variables as they were; the response they send
    contains the rows rendered from the job cache. This holds in every
    phase, in particular after the fetch has settled. *)
Theorem get_root_idempotent (env : Environment) (p1 p2 p1' p2' : Process)
    (tr1 tr2 : list Effect) :
  server p2 = server p1 →
  step env p1 GetRoot = Some (p1', tr1) →
  step env p2 GetRoot = Some (p2', tr2) →
  tr1 = tr2
  ∧ server p1' = server p1 ∧ server p2' = server p2
  ∧ ∀ body, Send body ∈ tr1 →
            contains (jobRows (cachedJobs (server p1))) body.
Proof.
  intros Hsame H1 H2.
  apply step_GetRoot in H1 as [Hs1 ->], H2 as [Hs2 ->].
  rewrite Hsame. split_and!; [done | done | congruence |].
  intros body Hbody.
  pose proof (getEffectiveQueryOptions_console (argv env)) as Hc.
  assert (∀ w, forallb isConsole w = true → Send body ∉ w) as Hno.
  { intros w Hw Hin%list_elem_of_In.
    rewrite forallb_forall in Hw. by apply Hw in Hin. }
  destruct (getRoot_cases env (server p1))
    as [(w & q & Hq & Hr)|(w & code & Hq & Hr)];
    rewrite Hr in Hbody; rewrite Hq in Hc; cbn in Hbody, Hc.
  - apply elem_of_app in Hbody as [Hin|Hin]; [by apply Hno in Hin |].
    apply list_elem_of_singleton in Hin. injection Hin as ->.
    apply renderPage_contains_rows.
  - by apply Hno in Hbody.
Qed.

Lemma get_root_idempotent_witness :
  let settled :=
    {| server := {| cachedJobs := [exampleJob "1"; exampleJob "2"];
                    cachedErrorMessage := EmptyString;
                    isInitialFetchComplete := true |};
       phase := Idle |} in
  ∃ p1' p2' tr1 tr2,
    step exampleEnv settled GetRoot = Some (p1', tr1)
    ∧ step exampleEnv p1' GetRoot = Some (p2', tr2)
    ∧ tr1 = tr2 ∧ server p1' = server settled ∧ server p2' = server p1'.
Proof.
  intros settled.
  destruct (step exampleEnv settled GetRoot) as [[p1' tr1]|] eqn:H1;
    [|by vm_compute in H1].
  destruct (step exampleEnv p1' GetRoot) as [[p2' tr2]|] eqn:H2.
  - exists p1', p2', tr1, tr2. split_and!; [done | done | ..].
    all: assert (server p1' = server settled) as Hs
        by (vm_compute in H1; by injection H1 as <- _).
    all: destruct (get_root_idempotent exampleEnv settled p1' p1' p2' tr1 tr2
                     Hs H1 H2) as (Htr & Hs1 & Hs2 & _); done.
  - vm_compute in H1. injection H1 as <- _. by vm_compute in H2.
Defined.

(** * Further properties of the code *)

Lemma returned_Ret {A : Type} (m : Proc A) :
  returned m = true → ∃ tr a, m = Ret tr a.
Proof. destruct m; [eauto | done]. Qed.

Lemma taken_Some {A B : Type} (o : option (A * B)) :
  taken o = true → ∃ a b, o = Some (a, b).
Proof. destruct o as [[a b]|]; [eauto | done]. Qed.

(** ** [escapeHtml], character by character *)

Lemma replaceAll_app (c : ascii) (by_ a b : string) :
  JS.replaceAll c by_ (a +:+ b)
  = JS.replaceAll c by_ a +:+ JS.replaceAll c by_ b.
Proof.
  induction a as [|x a IH]; [done |].
  rewrite append_cons. simpl. destruct (Ascii.eqb x c).
  - by rewrite IH, append_assoc.
  - by rewrite IH, append_cons.
Qed.

Lemma escapeHtml_app (a b : string) :
  escapeHtml (a +:+ b) = escapeHtml a +:+ escapeHtml b.
Proof. unfold escapeHtml. by rewrite !replaceAll_app. Qed.

Lemma escapeHtml_one (c : ascii) :
  escapeHtml (String c EmptyString) = escapeChar c.
Proof.
  unfold escapeChar.
  destruct (Ascii.eqb_spec c "&") as [->|H1]; [done |].
  destruct (Ascii.eqb_spec c "<") as [->|H2]; [done |].
  destruct (Ascii.eqb_spec c ">") as [->|H3]; [done |].
  destruct (Ascii.eqb_spec c (Ascii.ascii_of_nat 34)) as [->|H4]; [done |].
  destruct (Ascii.eqb_spec c "'") as [->|H5]; [done |].
  unfold escapeHtml. cbn [JS.replaceAll].
  apply Ascii.eqb_neq in H1, H2, H3, H4, H5.
  rewrite H1. cbn [JS.replaceAll]. rewrite H2. cbn [JS.replaceAll].
  rewrite H3. cbn [JS.replaceAll]. rewrite H4. cbn [JS.replaceAll].
  by rewrite H5.
Qed.

(** X1. The five replacements in a row amount to one pass that rewrites
    each character on its own: no replacement touches what an earlier one
    wrote, so the ampersand of an entity is never escaped again. *)
Theorem escapeHtml_single_pass (unsafe : string) :
  escapeHtml unsafe = flatMap escapeChar unsafe.
Proof.
  induction unsafe as [|c s IH]; [done |].
  change (String c s) with (String c EmptyString +:+ s).
  rewrite escapeHtml_app, escapeHtml_one, IH. done.
Qed.

(** Evaluate the comparisons of two known characters. *)
Ltac eval_eqb :=
  repeat match goal with
         | |- context [Ascii.eqb ?a ?b] =>
             let v := eval vm_compute in (Ascii.eqb a b) in
             change (Ascii.eqb a b) with v
         end;
  cbn [String.length].

Lemma length_app (a b : string) :
  String.length (a +:+ b) = String.length a + String.length b.
Proof.
  induction a as [|x a IH]; [done |].
  rewrite append_cons. simpl. by rewrite IH.
Qed.

(** The texts [escapeChar] writes form a prefix code: what follows the
    text of one character never makes it read as the text of another. *)
Lemma escapeChar_prefix_code (c d : ascii) (x y : string) :
  escapeChar c +:+ x = escapeChar d +:+ y → c = d ∧ x = y.
Proof.
  unfold escapeChar.
  destruct (Ascii.eqb_spec c "&") as [->|?];
    [|destruct (Ascii.eqb_spec c "<") as [->|?];
      [|destruct (Ascii.eqb_spec c ">") as [->|?];
        [|destruct (Ascii.eqb_spec c (Ascii.ascii_of_nat 34)) as [->|?];
          [|destruct (Ascii.eqb_spec c "'") as [->|?]]]]];
    (destruct (Ascii.eqb_spec d "&") as [->|?];
     [|destruct (Ascii.eqb_spec d "<") as [->|?];
       [|destruct (Ascii.eqb_spec d ">") as [->|?];
         [|destruct (Ascii.eqb_spec d (Ascii.ascii_of_nat 34)) as [->|?];
           [|destruct (Ascii.eqb_spec d "'") as [->|?]]]]]);
    rewrite ?append_cons, ?append_nil_l; intros H; by simplify_eq.
Qed.

(** X2. [escapeHtml] loses nothing: two texts with the same escaped form
    are the same text. *)
Theorem escapeHtml_injective (a b : string) :
  escapeHtml a = escapeHtml b → a = b.
Proof.
  rewrite !escapeHtml_single_pass. revert b.
  induction a as [|c a IH]; intros [|d b]; cbn [flatMap]; try done.
  - unfold escapeChar. intros H. exfalso.
    repeat (destruct (Ascii.eqb _ _); [by rewrite ?append_cons in H |]).
    by rewrite append_cons in H.
  - unfold escapeChar. intros H. exfalso.
    repeat (destruct (Ascii.eqb _ _); [by rewrite ?append_cons in H |]).
    by rewrite append_cons in H.
  - intros [-> H]%escapeChar_prefix_code. by rewrite (IH b H).
Qed.

Lemma escapeHtml_injective_witness :
  escapeHtml "a<b & c" = escapeHtml "a<b & c" ∧ "a<b & c" = "a<b & c".
Proof.
  split; [reflexivity |].
  apply (escapeHtml_injective "a<b & c" "a<b & c"). reflexivity.
Defined.

(** X3. The length of the escaped text: the length of the input plus four
    for each ampersand, three for each angle bracket and five for each
    quote of either kind. In particular escaping never shortens a text. *)
Theorem escapeHtml_length (unsafe : string) :
  String.length (escapeHtml unsafe)
  = String.length unsafe
    + 4 * countChar "&" unsafe
    + 3 * countChar "<" unsafe + 3 * countChar ">" unsafe
    + 5 * countChar (Ascii.ascii_of_nat 34) unsafe
    + 5 * countChar "'" unsafe.
Proof.
  rewrite escapeHtml_single_pass.
  induction unsafe as [|c s IH]; [done |].
  cbn [flatMap countChar String.length]. rewrite length_app, IH.
  unfold escapeChar.
  destruct (Ascii.eqb_spec c "&") as [->|?]; [eval_eqb; lia |].
  destruct (Ascii.eqb_spec c "<") as [->|?]; [eval_eqb; lia |].
  destruct (Ascii.eqb_spec c ">") as [->|?]; [eval_eqb; lia |].
  destruct (Ascii.eqb_spec c (Ascii.ascii_of_nat 34)) as [->|?];
    [eval_eqb; lia |].
  destruct (Ascii.eqb_spec c "'") as [->|?]; [eval_eqb; lia |].
  cbn [String.length]. lia.
Qed.

(** X4. A text is left as it is exactly when it holds none of the five
    characters; and escaping twice gives the same as escaping once exactly
    for those texts: any entity written by the first pass has its
    ampersand escaped again by the second. *)
Theorem escapeHtml_fixed_points (unsafe : string) :
  (escapeHtml unsafe = unsafe
   ↔ Forall (λ c, countChar c unsafe = 0) escapedChars)
  ∧ (escapeHtml (escapeHtml unsafe) = escapeHtml unsafe
     ↔ escapeHtml unsafe = unsafe).
Proof.
  assert (∀ s, escapeHtml s = s
               ↔ Forall (λ c, countChar c s = 0) escapedChars) as Hfix.
  { intros s. unfold escapedChars. rewrite !Forall_cons, Forall_nil. split.
    - intros H. pose proof (escapeHtml_length s) as Hlen.
      rewrite H in Hlen. split_and!; try done; lia.
    - intros (H1 & H2 & H3 & H4 & H5 & _).
      rewrite escapeHtml_single_pass.
      induction s as [|c s IH]; [done |].
      cbn [countChar] in H1, H2, H3, H4, H5. cbn [flatMap]. unfold escapeChar.
      destruct (Ascii.eqb c "&"); [done |].
      destruct (Ascii.eqb c "<"); [done |].
      destruct (Ascii.eqb c ">"); [done |].
      destruct (Ascii.eqb c (Ascii.ascii_of_nat 34)); [done |].
      destruct (Ascii.eqb c "'"); [done |].
      rewrite append_cons, append_nil_l. f_equal. by apply IH. }
  split; [apply Hfix |]. split; [|intros H; by rewrite !H].
  intros H. apply Hfix. apply Hfix in H.
  unfold escapedChars in H |- *. rewrite !Forall_cons in H.
  destruct H as (Hamp & _). rewrite !Forall_cons, Forall_nil.
  clear Hfix. rewrite escapeHtml_single_pass in Hamp.
  induction unsafe as [|c s IH]; [done |].
  cbn [flatMap] in Hamp. rewrite countChar_app in Hamp.
  assert (countChar "&" (escapeChar c) = 0) as Hc by lia.
  destruct IH as (H1 & H2 & H3 & H4 & H5 & _); [lia |].
  cbn [countChar]. unfold escapeChar in Hc.
  destruct (Ascii.eqb c "&"); [done |].
  destruct (Ascii.eqb c "<"); [done |].
  destruct (Ascii.eqb c ">"); [done |].
  destruct (Ascii.eqb c (Ascii.ascii_of_nat 34)); [done |].
  destruct (Ascii.eqb c "'"); [done |].
  split_and!; try done; lia.
Qed.

(** ** The argument parser, token by token *)

Lemma split_beforeEquals (v : string) :
  ∃ rest, JS.split "=" v = beforeEquals v :: rest.
Proof.
  induction v as [|c v [rest IH]]; simpl; [by exists [] |].
  destruct (Ascii.eqb c "="); [by eexists |].
  rewrite IH. by eexists.
Qed.

Lemma applied_false (tok : string) :
  (∀ key, key ∈ recognizedKeys →
          match overrideValue key tok with
          | Some v => validFor key (beforeEquals v) = false
          | None => True
          end) →
  applied tok = false.
Proof.
  intros H. unfold applied. apply not_true_iff_false.
  intros (key & Hk%list_elem_of_In & Hv)%existsb_exists.
  specialize (H key Hk). destruct (overrideValue key tok); congruence.
Qed.

(** One iteration on a token other than a help token: either the token
    is applied, silently, to the one key it names, with the part of its
    value before any further [=]; or nothing changes and one warning is
    printed. *)
Lemma loopBody_applied (tok : string) (args : gmap string string) :
  isHelpToken tok = false →
  if applied tok
  then ∃ key v, key ∈ recognizedKeys ∧ overrideValue key tok = Some v
                ∧ validFor key (beforeEquals v) = true
                ∧ loopBody tok args = Ret [] (<[key := beforeEquals v]> args)
  else ∃ text, loopBody tok args = Ret [ConsoleWarn text] args.
Proof.
  intros Hhelp. rewrite loopBody_other by done.
  assert (∀ key, key ∈ recognizedKeys →
                 overrideValue key tok =
                 if JS.startsWith "--" tok then
                   match JS.split "=" (JS.substring 2 tok) with
                   | k :: _ :: _ =>
                       if decide (k = key)
                       then stripPrefix (key +:+ "=") (JS.substring 2 tok)
                       else None
                   | _ => None
                   end
                 else None) as Hov.
  { intros key Hk. apply overrideValue_split.
    by destruct (recognizedKeys_plain key Hk). }
  destruct (JS.startsWith "--" tok).
  2:{ rewrite applied_false; [eauto |]. intros key Hk. by rewrite Hov. }
  destruct (JS.split "=" (JS.substring 2 tok)) as [|k [|value rest]] eqn:E.
  1,2: rewrite applied_false, invalidFormat_Ret; [eauto |];
       intros key Hk; by rewrite Hov.
  destruct (split_inv _ _ _ _ E) as [Hsep [[? _]|(r & Hr & Hrest)]]; [done |].
  destruct (split_beforeEquals r) as [rest' Hhead].
  rewrite Hhead in Hrest. injection Hrest as -> ->.
  assert (stripPrefix (k +:+ "=") (JS.substring 2 tok) = Some r) as Hstrip
      by (apply stripPrefix_Some; by rewrite Hr, append_assoc).
  destruct (JS.truthy k) eqn:Htruthy.
  2:{ rewrite applied_false, invalidFormat_Ret; [eauto |].
      intros key Hk. rewrite Hov by done. destruct (decide (k = key)); [|done].
      subst k. destruct (recognizedKeys_plain key Hk). congruence. }
  destruct (decide (k ∈ recognizedKeys)) as [Hk|Hk].
  - rewrite switchKey_recognized by done.
    destruct (validFor k (beforeEquals r)) eqn:Hvalid.
    + assert (applied tok = true) as ->.
      { apply existsb_exists. exists k. split; [by apply list_elem_of_In |].
        by rewrite Hov, decide_True, Hstrip by done. }
      exists k, r. split_and!; try done.
      by rewrite Hov, decide_True by done.
    + rewrite applied_false; [eauto |]. intros key Hkey.
      rewrite Hov by done. destruct (decide (k = key)) as [<-|]; [|done].
      by rewrite Hstrip.
  - rewrite switchKey_unknown by done.
    rewrite applied_false; [eauto |]. intros key Hkey.
    rewrite Hov by done. destruct (decide (k = key)) as [<-|]; done.
Qed.

Lemma parseLoop_app (pre post : list string) (args : gmap string string) :
  parseLoop (pre ++ post) args
  = match parseLoop pre args with
    | Ret tr args1 =>
        match parseLoop post args1 with
        | Ret tr' args2 => Ret (tr ++ tr') args2
        | Exit tr' code => Exit (tr ++ tr') code
        end
    | Exit tr code => Exit tr code
    end.
Proof.
  revert args. induction pre as [|tok pre IH]; intros args.
  - cbn [app parseLoop]. unfold mret, Proc_ret. by destruct (parseLoop post args).
  - cbn [app]. destruct (loopBody tok args) as [tr1 args1|tr1 code] eqn:Hbody.
    + rewrite !(parseLoop_cons_Ret _ _ _ _ _ Hbody), IH.
      destruct (parseLoop pre args1) as [tr2 args2|]; [|done].
      destruct (parseLoop post args2); by rewrite (assoc_L (++)).
    + cbn [parseLoop]. unfold mbind, Proc_mbind, Proc_bind. by rewrite Hbody.
Qed.

(** X5. The resolver ends the process only for a help token, and then
    with status 0 and the usage text as the last thing printed: whatever
    the arguments, it returns exactly when none of them is a help token.
    No argument makes it fail in any other way. *)
Theorem resolver_exits_only_for_help (argv : list string) :
  match getEffectiveQueryOptions argv with
  | Ret _ _ => existsb isHelpToken (drop 2 argv) = false
  | Exit tr code =>
      existsb isHelpToken (drop 2 argv) = true
      ∧ code = 0%Z ∧ last tr = Some (ConsoleLog usageText)
  end.
Proof.
  unfold getEffectiveQueryOptions, parseCommandLineArgs.
  destruct (existsb isHelpToken (drop 2 argv)) eqn:E.
  - apply existsb_exists in E as (h & Hin%list_elem_of_In & Hh).
    apply list_elem_of_split in Hin as (pre & post & ->).
    destruct (parseLoop_help pre h post ∅ Hh) as (w & -> & _).
    cbn. split_and!; try done. by rewrite last_snoc.
  - assert (forallb (λ tok, negb (isHelpToken tok)) (drop 2 argv) = true) as H.
    { apply forallb_forall. intros tok Hin. apply negb_true_iff.
      apply not_true_iff_false. intros Hh.
      apply not_true_iff_false in E. apply E, existsb_exists. eauto. }
    by destruct (parseLoop_total _ ∅ H) as (tr & args & ->).
Qed.

(** The options the loop builds hold recognized keys only, each with a
    value valid for it. *)
Lemma parseLoop_valid (toks : list string) (args args' : gmap string string)
    (tr : list Effect) :
  (∀ key v, args !! key = Some v →
            key ∈ recognizedKeys ∧ validFor key v = true) →
  parseLoop toks args = Ret tr args' →
  ∀ key v, args' !! key = Some v →
           key ∈ recognizedKeys ∧ validFor key v = true.
Proof.
  revert args tr. induction toks as [|tok toks IH]; intros args tr Hargs H.
  - by injection H as _ <-.
  - destruct (isHelpToken tok) eqn:Hh;
      [by rewrite parseLoop_cons_help in H |].
    pose proof (loopBody_applied tok args Hh) as Hbody.
    destruct (applied tok).
    + destruct Hbody as (k & w & Hk & _ & Hvalid & Hbody).
      rewrite (parseLoop_cons_Ret _ _ _ _ _ Hbody) in H.
      destruct (parseLoop toks _) as [tr2 args2|] eqn:Hrest; [|done].
      injection H as _ <-. eapply IH; [|done].
      intros key v. destruct (decide (k = key)) as [<-|Hne].
      * rewrite lookup_insert_eq. by intros [= <-].
      * rewrite lookup_insert_ne by done. apply Hargs.
    + destruct Hbody as (text & Hbody).
      rewrite (parseLoop_cons_Ret _ _ _ _ _ Hbody) in H.
      destruct (parseLoop toks args) as [tr2 args2|] eqn:Hrest; [|done].
      injection H as _ <-. by eapply IH.
Qed.

Lemma defaults_valid (key v : string) :
  hardcodedDefaultOptions !! key = Some v →
  key ∈ recognizedKeys ∧ validFor key v = true.
Proof.
  intros H.
  assert (key ∈ recognizedKeys) as Hk.
  { assert (key ∈ dom hardcodedDefaultOptions) as Hd
        by (apply elem_of_dom; eauto).
    unfold hardcodedDefaultOptions in Hd.
    rewrite !dom_insert_L, dom_empty_L in Hd.
    unfold recognizedKeys. cbn [map fst QueryOptions]. set_solver. }
  split; [done |].
  unfold recognizedKeys in Hk. cbn [map fst QueryOptions] in Hk. set_unfold.
  destruct Hk as [->|[->|[->|[->|[->|[->|[->|[->|[->|[]]]]]]]]]];
    vm_compute in H; by injection H as <-.
Qed.

(** X6. Whatever the arguments, the resolved options have exactly the
    nine properties of [QueryOptions], and each enumerated property holds a
    member of its enumeration. *)
Theorem resolved_options_well_typed (argv : list string) (tr : list Effect)
    (q : gmap string string) :
  getEffectiveQueryOptions argv = Ret tr q →
  dom q = list_to_set recognizedKeys
  ∧ ∀ key members v, enumeration key = Some members → q !! key = Some v →
                     v ∈ members.
Proof.
  unfold getEffectiveQueryOptions, parseCommandLineArgs.
  destruct (parseLoop (drop 2 argv) ∅) as [w args|] eqn:Hloop; [|done].
  intros [= _ <-].
  assert (∀ key v, args !! key = Some v →
                   key ∈ recognizedKeys ∧ validFor key v = true) as Hvalid.
  { eapply parseLoop_valid; [|done]. intros key v H.
    by rewrite lookup_empty in H. }
  split.
  - apply set_eq. intros key.
    rewrite elem_of_dom, elem_of_list_to_set. split.
    + intros [v [Hv|[_ Hv]]%lookup_union_Some_raw].
      * by destruct (Hvalid _ _ Hv).
      * by destruct (defaults_valid _ _ Hv).
    + intros Hk. rewrite lookup_union.
      assert (is_Some (hardcodedDefaultOptions !! key)) as [d ->].
      { unfold recognizedKeys in Hk. cbn [map fst QueryOptions] in Hk.
        set_unfold.
        by destruct Hk as [->|[->|[->|[->|[->|[->|[->|[->|[->|[]]]]]]]]]]. }
      by destruct (args !! key).
  - intros key members v Henum Hq.
    assert (validFor key v = true) as Hv.
    { apply lookup_union_Some_raw in Hq as [Hq|[_ Hq]].
      - by destruct (Hvalid _ _ Hq).
      - by destruct (defaults_valid _ _ Hq). }
    unfold validFor in Hv. rewrite Henum in Hv.
    by apply bool_decide_eq_true in Hv.
Qed.

Lemma resolved_options_well_typed_witness :
  ∃ tr q,
    getEffectiveQueryOptions
      ["node"; "dist/server.js"; "--jobType=contract=x"; "--sortBy=oldest";
       "--colour=blue"] = Ret tr q
    ∧ dom q = list_to_set recognizedKeys
    ∧ ∀ v, q !! "jobType" = Some v →
           v ∈ ["full time"; "part time"; "contract"; "temporary";
                "volunteer"; "internship"; EmptyString].
Proof.
  destruct (returned_Ret (getEffectiveQueryOptions
              ["node"; "dist/server.js"; "--jobType=contract=x";
               "--sortBy=oldest"; "--colour=blue"])
              ltac:(vm_compute; reflexivity)) as (tr & q & Hq).
  exists tr, q. split; [done |].
  destruct (resolved_options_well_typed _ tr q Hq) as [Hdom Henum].
  split; [done |]. intros v Hv. by apply (Henum "jobType" _ v).
Defined.

(** A token reads as [--key=value] for one separator-free key at most. *)
Lemma overrideValue_unique (k key tok v v' : string) :
  countChar "=" k = 0 → countChar "=" key = 0 →
  overrideValue k tok = Some v → overrideValue key tok = Some v' → k = key.
Proof.
  unfold overrideValue. intros Hk Hkey H1%stripPrefix_Some H2%stripPrefix_Some.
  rewrite H1, !append_assoc in H2. apply (inj (String.app "--")) in H2.
  rewrite !append_cons, !append_nil_l in H2.
  by apply sep_prefix_unique in H2 as [-> _].
Qed.

Lemma loopBody_field_exact (key tok : string) (args args' : gmap string string)
    (tr : list Effect) :
  key ∈ recognizedKeys → loopBody tok args = Ret tr args' →
  args' !! key = match overrideValue key tok with
                 | Some v =>
                     if validFor key (beforeEquals v)
                     then Some (beforeEquals v) else args !! key
                 | None => args !! key
                 end.
Proof.
  intros Hkey Hbody.
  destruct (isHelpToken tok) eqn:Hh; [by rewrite loopBody_help in Hbody |].
  pose proof (loopBody_applied tok args Hh) as Happ.
  destruct (applied tok) eqn:E.
  - destruct Happ as (k & v & Hk & Hov & Hvalid & Hret).
    rewrite Hret in Hbody. injection Hbody as _ <-.
    destruct (decide (k = key)) as [->|Hne].
    + by rewrite Hov, Hvalid, lookup_insert_eq.
    + rewrite lookup_insert_ne by done.
      destruct (overrideValue key tok) as [v'|] eqn:Hov'; [|done].
      destruct Hne. eapply overrideValue_unique; [| |done ..];
        by apply recognizedKeys_plain.
  - destruct Happ as (text & Hret). rewrite Hret in Hbody.
    injection Hbody as _ <-.
    destruct (overrideValue key tok) as [v|] eqn:Hov; [|done].
    destruct (validFor key (beforeEquals v)) eqn:Hvalid; [|done].
    apply not_true_iff_false in E. destruct E.
    apply existsb_exists. exists key. split; [by apply list_elem_of_In |].
    by rewrite Hov.
Qed.

Lemma parseLoop_field_exact (key : string) (toks : list string)
    (args args' : gmap string string) (tr : list Effect) :
  key ∈ recognizedKeys → parseLoop toks args = Ret tr args' →
  args' !! key = match lastApplied key toks with
                 | Some v => Some v
                 | None => args !! key
                 end.
Proof.
  intros Hkey. revert args tr.
  induction toks as [|tok toks IH]; intros args tr H.
  - by injection H as _ <-.
  - destruct (loopBody tok args) as [tr1 args1|] eqn:Hbody.
    2:{ cbn [parseLoop] in H. unfold mbind, Proc_mbind, Proc_bind in H.
        by rewrite Hbody in H. }
    rewrite (parseLoop_cons_Ret _ _ _ _ _ Hbody) in H.
    destruct (parseLoop toks args1) as [tr2 args2|] eqn:Hrest; [|done].
    injection H as _ <-. rewrite (IH _ _ Hrest). cbn [lastApplied].
    destruct (lastApplied key toks); [done |].
    rewrite (loopBody_field_exact key tok args args1 tr1) by done.
    destruct (overrideValue key tok) as [v|]; [|done].
    by destruct (validFor key (beforeEquals v)).
Qed.

Lemma resolved_field_exact_aux (argv : list string) (key : string)
    (tr : list Effect) (q : gmap string string) :
  key ∈ recognizedKeys →
  getEffectiveQueryOptions argv = Ret tr q →
  q !! key = match lastApplied key (drop 2 argv) with
             | Some v => Some v
             | None => hardcodedDefaultOptions !! key
             end.
Proof.
  intros Hkey. unfold getEffectiveQueryOptions, parseCommandLineArgs.
  destruct (parseLoop (drop 2 argv) ∅) as [w args|] eqn:Hloop; [|done].
  intros [= _ <-].
  rewrite lookup_union, (parseLoop_field_exact key _ _ _ _ Hkey Hloop).
  rewrite lookup_empty.
  destruct (lastApplied key (drop 2 argv)); [|by rewrite (left_id_L None _)].
  by destruct (hardcodedDefaultOptions !! key).
Qed.

(** X7. The resolved value of a recognized key, for any arguments: the
    part before any further [=] of the value of the last token
    [--key=value] for which that part is valid for the key, and the
    default when there is no such token. A value is cut at its first [=]
    before it is checked and stored. *)
Theorem resolved_field_exact (argv : list string) (key : string)
    (tr : list Effect) (q : gmap string string) :
  key ∈ recognizedKeys →
  getEffectiveQueryOptions argv = Ret tr q →
  q !! key = match lastApplied key (drop 2 argv) with
             | Some v => Some v
             | None => hardcodedDefaultOptions !! key
             end.
Proof. apply resolved_field_exact_aux. Qed.

Lemma resolved_field_exact_witness :
  ∃ tr q,
    getEffectiveQueryOptions
      ["node"; "dist/server.js"; "--location=Paris"; "--sortBy=relevant=1";
       "--location=a=b"; "--sortBy=newest"] = Ret tr q
    ∧ q !! "location" = Some "a" ∧ q !! "sortBy" = Some "relevant".
Proof.
  destruct (returned_Ret (getEffectiveQueryOptions
              ["node"; "dist/server.js"; "--location=Paris";
               "--sortBy=relevant=1"; "--location=a=b"; "--sortBy=newest"])
              ltac:(vm_compute; reflexivity)) as (tr & q & Hq).
  exists tr, q. split; [done |]. split.
  - exact (resolved_field_exact _ "location" tr q ltac:(compute_done) Hq).
  - exact (resolved_field_exact _ "sortBy" tr q ltac:(compute_done) Hq).
Defined.





(** X9. An argument that is not applied changes nothing but the log:
    taking it out of the arguments leaves the resolved options as they
    were and removes one warning. *)
Theorem unapplied_argument_changes_nothing (node script tok : string)
    (pre post : list string) (tr : list Effect) (q : gmap string string) :
  isHelpToken tok = false → applied tok = false →
  getEffectiveQueryOptions (node :: script :: pre ++ tok :: post) = Ret tr q →
  ∃ tr1 text tr2,
    tr = tr1 ++ ConsoleWarn text :: tr2
    ∧ getEffectiveQueryOptions (node :: script :: pre ++ post)
      = Ret (tr1 ++ tr2) q.
Proof.
  intros Hh Happ. unfold getEffectiveQueryOptions, parseCommandLineArgs.
  cbn [drop]. rewrite !drop_0, !parseLoop_app.
  destruct (parseLoop pre ∅) as [tr1 args1|]; [|done].
  pose proof (loopBody_applied tok args1 Hh) as Hbody. rewrite Happ in Hbody.
  destruct Hbody as (text & Hbody).
  rewrite (parseLoop_cons_Ret _ _ _ _ _ Hbody).
  destruct (parseLoop post args1) as [tr2 args2|]; [|done].
  intros [= <- <-]. exists tr1, text, tr2.
  unfold mbind, Proc_mbind, Proc_bind, mret, Proc_ret.
  by rewrite !app_nil_r.
Qed.

Lemma unapplied_argument_changes_nothing_witness :
  ∃ tr q tr',
    getEffectiveQueryOptions
      ["node"; "dist/server.js"; "--keyword=Go"; "--salary=1"; "--limit=5"]
    = Ret tr q
    ∧ getEffectiveQueryOptions
        ["node"; "dist/server.js"; "--keyword=Go"; "--limit=5"] = Ret tr' q.
Proof.
  destruct (returned_Ret (getEffectiveQueryOptions
              ["node"; "dist/server.js"; "--keyword=Go"; "--salary=1";
               "--limit=5"])
              ltac:(vm_compute; reflexivity)) as (tr & q & Hq).
  destruct (unapplied_argument_changes_nothing "node" "dist/server.js"
              "--salary=1" ["--keyword=Go"] ["--limit=5"] tr q)
    as (tr1 & text & tr2 & _ & Hq'); [reflexivity | reflexivity | done |].
  by exists tr, q, (tr1 ++ tr2).
Defined.

(** X10. Fields do not interfere: an argument that is not of the form
    [--key=value] for a recognized key [key] can be taken out without
    changing the resolved value of [key]. *)
Theorem field_ignores_other_arguments (node script tok key : string)
    (pre post : list string) (tr tr' : list Effect)
    (q q' : gmap string string) :
  key ∈ recognizedKeys → overrideValue key tok = None →
  getEffectiveQueryOptions (node :: script :: pre ++ tok :: post) = Ret tr q →
  getEffectiveQueryOptions (node :: script :: pre ++ post) = Ret tr' q' →
  q !! key = q' !! key.
Proof.
  intros Hkey Hov Hq Hq'.
  rewrite (resolved_field_exact_aux _ _ _ _ Hkey Hq).
  rewrite (resolved_field_exact_aux _ _ _ _ Hkey Hq').
  cbn [drop]. rewrite !drop_0.
  assert (lastApplied key (pre ++ tok :: post) = lastApplied key (pre ++ post))
    as ->; [|done].
  clear Hq Hq'.
  induction pre as [|t pre IH]; cbn [app lastApplied]; [|by rewrite IH].
  by rewrite Hov; destruct (lastApplied key post).
Qed.

Lemma field_ignores_other_arguments_witness :
  ∃ tr q tr' q',
    getEffectiveQueryOptions
      ["node"; "dist/server.js"; "--keyword=Go"; "--limit=5"; "--keyword=Rust"]
    = Ret tr q
    ∧ getEffectiveQueryOptions
        ["node"; "dist/server.js"; "--keyword=Go"; "--keyword=Rust"]
      = Ret tr' q'
    ∧ q !! "keyword" = q' !! "keyword".
Proof.
  destruct (returned_Ret (getEffectiveQueryOptions
              ["node"; "dist/server.js"; "--keyword=Go"; "--limit=5";
               "--keyword=Rust"])
              ltac:(vm_compute; reflexivity)) as (tr & q & Hq).
  destruct (returned_Ret (getEffectiveQueryOptions
              ["node"; "dist/server.js"; "--keyword=Go"; "--keyword=Rust"])
              ltac:(vm_compute; reflexivity)) as (tr' & q' & Hq').
  exists tr, q, tr', q'. split_and!; [done | done |].
  apply (field_ignores_other_arguments "node" "dist/server.js" "--limit=5"
           "keyword" ["--keyword=Go"] ["--keyword=Rust"] tr tr' q q');
    [compute_done | reflexivity | done | done].
Defined.

(** ** The event loop: what is sent, and when *)

Section Outputs.

Variable env : Environment.

Implicit Types (p : Process) (i : Input) (tr : list Effect).

Lemma queriesOf_app tr1 tr2 :
  queriesOf (tr1 ++ tr2) = queriesOf tr1 ++ queriesOf tr2.
Proof. apply omap_app. Qed.

Lemma responsesOf_app tr1 tr2 :
  responsesOf (tr1 ++ tr2) = responsesOf tr1 ++ responsesOf tr2.
Proof. apply omap_app. Qed.

Lemma queriesOf_cons (e : Effect) tr :
  queriesOf (e :: tr)
  = match queryOf e with
    | Some q => q :: queriesOf tr
    | None => queriesOf tr
    end.
Proof. reflexivity. Qed.

Lemma responsesOf_cons (e : Effect) tr :
  responsesOf (e :: tr)
  = match responseOf e with
    | Some body => body :: responsesOf tr
    | None => responsesOf tr
    end.
Proof. reflexivity. Qed.

Lemma queriesOf_console tr : forallb isConsole tr = true → queriesOf tr = [].
Proof.
  induction tr as [|e tr IH]; [done |].
  cbn [forallb]. intros [He Htr]%andb_true_iff.
  destruct e; try done. by apply IH.
Qed.

Lemma responsesOf_console tr :
  forallb isConsole tr = true → responsesOf tr = [].
Proof.
  induction tr as [|e tr IH]; [done |].
  cbn [forallb]. intros [He Htr]%andb_true_iff.
  destruct e; try done. by apply IH.
Qed.

(** The query and the responses of one turn of the event loop: only
    [listening] sends a query, only a request sends a response, and the
    response is the page of the cache as it is then. *)
Lemma step_outputs p i p' tr :
  step env p i = Some (p', tr) →
  phase p' ≠ Booting
  ∧ queriesOf tr
    = match i, getEffectiveQueryOptions (argv env) with
      | Listening, Ret _ q => [q]
      | _, _ => []
      end
  ∧ ∀ w q, getEffectiveQueryOptions (argv env) = Ret w q →
           responsesOf tr
           = if isGetRoot i
             then [renderPage q (cachedErrorMessage (server p))
                     (cachedJobs (server p))]
             else [].
Proof.
  unfold step. destruct p as [s ph].
  pose proof (getEffectiveQueryOptions_console (argv env)) as Hc.
  assert (∀ ph', ph' ≠ Booting →
    match getRoot env s with
    | Ret tr0 s0 => Some ({| server := s0; phase := ph' |}, tr0)
    | Exit tr0 code => Some ({| server := s; phase := Exited code |}, tr0)
    end = Some (p', tr) →
    phase p' ≠ Booting
    ∧ queriesOf tr = []
    ∧ ∀ w q, getEffectiveQueryOptions (argv env) = Ret w q →
             responsesOf tr
             = [renderPage q (cachedErrorMessage s) (cachedJobs s)]) as Hget.
  { intros ph' Hph'.
    destruct (getRoot_cases env s) as [(w & q & Hq & ->)|(w & code & Hq & ->)];
      rewrite Hq in Hc; cbn in Hc; intros [= <- <-]; (split; [done |]).
    - rewrite queriesOf_app, responsesOf_app.
      rewrite queriesOf_console, responsesOf_console by done.
      split; [done |]. intros w' q' Hq'. rewrite Hq in Hq'.
      by injection Hq' as _ <-.
    - split; [by apply queriesOf_console |]. intros w' q' Hq'. congruence. }
  destruct ph, i as [|r|e| |err|];
    cbn [dispatch phase server isGetRoot]; try done.
  - unfold onListening.
    destruct (getEffectiveQueryOptions (argv env)) as [w q|w code];
      cbn in Hc; intros [= <- <-]; (split; [done |]).
    + rewrite queriesOf_cons, responsesOf_cons, queriesOf_app, responsesOf_app.
      rewrite queriesOf_console, responsesOf_console by done.
      split; [done |]. by intros w' q' _.
    + rewrite queriesOf_console by done. split; [done |]. by intros w' q' ?.
  - destruct r; intros [= <- <-];
      (split_and!; [done | by destruct (getEffectiveQueryOptions _) | done]).
  - unfold onQueryRejected. destruct (isRateLimited e); intros [= <- <-];
      (split_and!; [done | by destruct (getEffectiveQueryOptions _) | done]).
  - intros H. destruct (Hget QueryPending) as (H1 & H2 & H3); [done | done |].
    split_and!; [done | by destruct (getEffectiveQueryOptions _) | done].
  - intros [= <- <-].
    split_and!; [done | by destruct (getEffectiveQueryOptions _) | done].
  - intros [= <- <-].
    split_and!; [done | by destruct (getEffectiveQueryOptions _) | done].
  - intros H. destruct (Hget OpenPending) as (H1 & H2 & H3); [done | done |].
    split_and!; [done | by destruct (getEffectiveQueryOptions _) | done].
  - intros H. destruct (Hget Idle) as (H1 & H2 & H3); [done | done |].
    split_and!; [done | by destruct (getEffectiveQueryOptions _) | done].
Qed.

Lemma run_queries p inputs p' tr :
  phase p ≠ Booting → run env p inputs = Some (p', tr) → queriesOf tr = [].
Proof.
  revert p tr. induction inputs as [|i inputs IH]; intros p tr Hph H.
  - by injection H as _ <-.
  - apply run_cons_Some in H as (p1 & t1 & t2 & Hs & Hr & ->).
    destruct (step_outputs _ _ _ _ Hs) as (Hph1 & Hq & _).
    rewrite queriesOf_app, (IH _ _ Hph1 Hr), Hq.
    destruct i; try done. unfold step in Hs. by destruct (phase p).
Qed.

(** Between settlements the responses are one page, sent once for each
    request. *)
Lemma run_quiet_responses p0 inputs p tr w q :
  getEffectiveQueryOptions (argv env) = Ret w q →
  existsb isSettlement inputs = false →
  run env p0 inputs = Some (p, tr) →
  responsesOf tr
  = replicate (requests inputs)
      (renderPage q (cachedErrorMessage (server p0)) (cachedJobs (server p0))).
Proof.
  intros Hq. revert p0 tr.
  induction inputs as [|i inputs IH]; intros p0 tr Hquiet H.
  - by injection H as _ <-.
  - cbn [existsb] in Hquiet. apply orb_false_iff in Hquiet as [Hi Hquiet].
    apply run_cons_Some in H as (p1 & t1 & t2 & Hs & Hr & ->).
    destruct (step_outputs _ _ _ _ Hs) as (_ & _ & Hresp).
    apply step_cases in Hs. rewrite Hi in Hs. destruct Hs as (Hserver & _).
    rewrite responsesOf_app, (Hresp _ _ Hq), (IH _ _ Hquiet Hr), Hserver.
    unfold requests. destruct i; cbn [isGetRoot];
      rewrite ?filter_cons_True, ?filter_cons_False by done; done.
Qed.

End Outputs.

(** X11. The collaborator is queried once per process, by the [listening]
    callback, with the resolved options: in every run the queries sent are
    that one query once the process listens and the arguments resolve, and
    none otherwise. No request and no settlement sends another. *)
Theorem query_sent_once (env : Environment) (inputs : list Input)
    (p : Process) (tr : list Effect) :
  run env boot inputs = Some (p, tr) →
  queriesOf tr
  = match inputs, getEffectiveQueryOptions (argv env) with
    | _ :: _, Ret _ q => [q]
    | _, _ => []
    end.
Proof.
  intros H. destruct inputs as [|i rest]; [by injection H as _ <- |].
  apply run_cons_Some in H as (p1 & t1 & t2 & Hs & Hr & ->).
  destruct (step_outputs _ _ _ _ _ Hs) as (Hph1 & Hq & _).
  rewrite queriesOf_app, (run_queries _ _ _ _ _ Hph1 Hr), Hq, app_nil_r.
  by destruct i.
Qed.

Lemma query_sent_once_witness :
  ∃ p tr q,
    run exampleEnv boot
      [Listening; GetRoot; QueryFulfilled (RespArray [exampleJob "1"]);
       GetRoot; OpenFulfilled; GetRoot] = Some (p, tr)
    ∧ queriesOf tr = [q].
Proof.
  destruct (returned_Ret (getEffectiveQueryOptions (argv exampleEnv))
              ltac:(vm_compute; reflexivity)) as (w & q & Hq).
  destruct (taken_Some
              (run exampleEnv boot
                 [Listening; GetRoot;
                  QueryFulfilled (RespArray [exampleJob "1"]);
                  GetRoot; OpenFulfilled; GetRoot])
              ltac:(vm_compute; reflexivity)) as (p & tr & Hrun).
  exists p, tr, q. split; [done |].
  pose proof (query_sent_once exampleEnv _ p tr Hrun) as H.
  by rewrite Hq in H.
Defined.

(** X12. Every request is answered once, from the cache as it is when the
    request arrives: before the query settles each response is the page of
    the empty cache, with no rows and no error, and after it each response
    is the page of the settled cache. *)
Theorem responses_follow_cache (env : Environment) (pre post : list Input)
    (i : Input) (p : Process) (tr w : list Effect) (q : gmap string string) :
  getEffectiveQueryOptions (argv env) = Ret w q →
  isSettlement i = true →
  run env boot (pre ++ i :: post) = Some (p, tr) →
  responsesOf tr
  = replicate (requests pre) (renderPage q EmptyString [])
    ++ replicate (requests post)
         (renderPage q (cachedErrorMessage (server p)) (cachedJobs (server p))).
Proof.
  intros Hq Hi H.
  destruct (run_boot_split _ _ _ _ _ _ H Hi)
    as (p2' & _ & _ & _ & _ & _ & _ & _ & _ & Hpre & Hpost & _).
  apply run_app_Some in H as (p1 & t1 & t23 & Hrun1 & H & ->).
  apply run_cons_Some in H as (p2 & t2 & t3 & Hstep & Hrun3 & ->).
  destruct (run_quiet _ _ _ _ _ Hpre Hrun1) as (Hs1 & _).
  destruct (run_quiet _ _ _ _ _ Hpost Hrun3) as (Hs3 & _).
  destruct (step_outputs _ _ _ _ _ Hstep) as (_ & _ & Hresp).
  rewrite !responsesOf_app.
  rewrite (run_quiet_responses _ _ _ _ _ _ _ Hq Hpre Hrun1).
  rewrite (run_quiet_responses _ _ _ _ _ _ _ Hq Hpost Hrun3).
  rewrite (Hresp _ _ Hq), Hs3.
  by destruct i.
Qed.

Lemma responses_follow_cache_witness :
  ∃ p tr q,
    run exampleEnv boot
      ([Listening; GetRoot]
       ++ QueryFulfilled (RespArray [exampleJob "1"])
       :: [GetRoot; OpenFulfilled; GetRoot]) = Some (p, tr)
    ∧ responsesOf tr
      = replicate 1 (renderPage q EmptyString [])
        ++ replicate 2 (renderPage q (cachedErrorMessage (server p))
                          (cachedJobs (server p))).
Proof.
  destruct (returned_Ret (getEffectiveQueryOptions (argv exampleEnv))
              ltac:(vm_compute; reflexivity)) as (w & q & Hq).
  destruct (taken_Some
              (run exampleEnv boot
                 ([Listening; GetRoot]
                  ++ QueryFulfilled (RespArray [exampleJob "1"])
                  :: [GetRoot; OpenFulfilled; GetRoot]))
              ltac:(vm_compute; reflexivity)) as (p & tr & Hrun).
  exists p, tr, q. split; [done |].
  exact (responses_follow_cache exampleEnv [Listening; GetRoot]
           [GetRoot; OpenFulfilled; GetRoot]
           (QueryFulfilled (RespArray [exampleJob "1"])) p tr w q Hq
           eq_refl Hrun).
Defined.

(** X13. Before the query settles, every request is answered with the
    page of the empty cache: a table without rows and no error banner,
    the same page as after a collaborator that found nothing. *)
Theorem responses_before_settlement (env : Environment)
    (inputs : list Input) (p : Process) (tr w : list Effect)
    (q : gmap string string) :
  getEffectiveQueryOptions (argv env) = Ret w q →
  existsb isSettlement inputs = false →
  run env boot inputs = Some (p, tr) →
  responsesOf tr = replicate (requests inputs) (renderPage q EmptyString []).
Proof.
  intros Hq Hquiet H.
  by rewrite (run_quiet_responses _ _ _ _ _ _ _ Hq Hquiet H).
Qed.

Lemma responses_before_settlement_witness :
  ∃ p tr q,
    run exampleEnv boot [Listening; GetRoot; GetRoot] = Some (p, tr)
    ∧ responsesOf tr = replicate 2 (renderPage q EmptyString []).
Proof.
  destruct (returned_Ret (getEffectiveQueryOptions (argv exampleEnv))
              ltac:(vm_compute; reflexivity)) as (w & q & Hq).
  destruct (taken_Some
              (run exampleEnv boot
                 [Listening; GetRoot; GetRoot])
              ltac:(vm_compute; reflexivity)) as (p & tr & Hrun).
  exists p, tr, q. split; [done |].
  exact (responses_before_settlement exampleEnv
           [Listening; GetRoot; GetRoot] p tr w q Hq eq_refl Hrun).
Defined.

(** ** The error message in the page *)

Lemma contains_trans (a b c : string) :
  contains a b → contains b c → contains a c.
Proof.
  intros (x & y & ->) (x' & y' & ->). exists (x' +:+ x), (y +:+ y').
  by rewrite !append_assoc.
Qed.

Lemma renderPage_contains_banner (q : gmap string string) (err : string)
    (jobs : list Job) :
  contains (errorBanner err) (renderPage q err jobs).
Proof.
  unfold renderPage.
  match goal with
  | |- contains _ (JS.template ?l) =>
      change l with (take 55 l ++ errorBanner err :: drop 56 l)
  end.
  rewrite template_app, template_cons. by eexists _, _.
Qed.

Lemma errorBanner_contains (err : string) :
  JS.truthy err = true → contains err (errorBanner err).
Proof.
  intros H. unfold errorBanner. rewrite H.
  rewrite !template_cons. by eexists _, _.
Qed.

Lemma truthy_app_cons (c : ascii) (a b : string) :
  JS.truthy (String c a +:+ b) = true.
Proof. by rewrite append_cons. Qed.

(** The [.catch] callback from the initial state. *)
Lemma rejected_step (env : Environment) (error : ApiError) (p2 : Process)
    (t2 : list Effect) :
  step env {| server := initialServer; phase := QueryPending |}
    (QueryRejected error) = Some (p2, t2) →
  cachedJobs (server p2) = []
  ∧ cachedErrorMessage (server p2)
    = "Failed to fetch jobs during initial startup: "
        +:+ JS.orElseOpt (message error) "Unknown error"
        +:+ ". Please check your connection or API limits."
        +:+ (if isRateLimited error then rateLimitHint else EmptyString).
Proof.
  unfold step. cbn [dispatch phase server]. unfold onQueryRejected.
  destruct (isRateLimited error); intros [= <- _];
    cbn [server cachedJobs cachedErrorMessage initialServer];
    by rewrite ?append_assoc, ?append_empty_r.
Qed.

(** X14. The error message reaches the page as it is: after a rejection
    whose error carries a non-empty message, the response to a request
    contains that message character for character, whatever characters it
    holds; the message is not passed through [escapeHtml]. *)
Theorem error_message_sent_unescaped (env : Environment)
    (pre post : list Input) (error : ApiError) (msg : string)
    (p p' : Process) (tr tr' : list Effect) :
  message error = Some msg → msg ≠ EmptyString →
  run env boot (pre ++ QueryRejected error :: post) = Some (p, tr) →
  step env p GetRoot = Some (p', tr') →
  ∃ body, responsesOf tr' = [body]
          ∧ contains (cachedErrorMessage (server p)) body
          ∧ contains msg body.
Proof.
  intros Hmsg Hne Hrun Hstep.
  destruct (run_boot_resolves env _ _ _ Hrun) as (w & q & Hq).
  { intros Hph. unfold step in Hstep. by rewrite Hph in Hstep. }
  { intros code Hph. unfold step in Hstep. by rewrite Hph in Hstep. }
  destruct (step_outputs _ _ _ _ _ Hstep) as (_ & _ & Hresp).
  specialize (Hresp _ _ Hq). cbn [isGetRoot] in Hresp.
  apply run_boot_split in Hrun
    as (p2 & t1 & t2 & t3 & Hs & Hp & _); [|done].
  apply rejected_step in Hs as [_ Herr]. rewrite <- Hp in Herr.
  eexists. split; [done |].
  assert (contains (cachedErrorMessage (server p))
            (renderPage q (cachedErrorMessage (server p))
               (cachedJobs (server p)))) as Hpage.
  { eapply contains_trans; [|apply renderPage_contains_banner].
    apply errorBanner_contains. rewrite Herr. apply truthy_app_cons. }
  split; [done |]. eapply contains_trans; [|done].
  rewrite Herr, Hmsg. cbn [JS.orElseOpt]. unfold JS.orElse, JS.truthy.
  destruct (String.eqb_spec msg EmptyString); [done |]. cbn [negb].
  by eexists _, _.
Qed.

Lemma error_message_sent_unescaped_witness :
  ∃ p tr p' tr' body,
    run exampleEnv boot
      ([Listening]
       ++ QueryRejected {| message := Some "<b>down</b>"; response := None |}
       :: [OpenFulfilled]) = Some (p, tr)
    ∧ step exampleEnv p GetRoot = Some (p', tr')
    ∧ responsesOf tr' = [body] ∧ contains "<b>down</b>" body.
Proof.
  destruct (taken_Some
              (run exampleEnv boot
                 ([Listening]
                  ++ QueryRejected {| message := Some "<b>down</b>";
                                      response := None |}
                  :: [OpenFulfilled]))
              ltac:(vm_compute; reflexivity)) as (p & tr & Hrun).
  assert (phase p = Idle) as Hph.
  { apply run_app_Some in Hrun as (p1 & t1 & t2 & _ & Hrun & _).
    apply run_cons_Some in Hrun as (p2 & u1 & u2 & Hs1 & Hrun & _).
    apply run_cons_Some in Hrun as (p3 & v1 & v2 & Hs2 & Hrun & _).
    injection Hrun as <- _.
    apply step_cases in Hs1 as (_ & Hph2 & _).
    unfold step in Hs2. rewrite Hph2 in Hs2. by injection Hs2 as <- _. }
  destruct (taken_Some (step exampleEnv p GetRoot)) as (p' & tr' & Hstep).
  { unfold step. rewrite Hph. cbn [dispatch].
    by destruct (getRoot exampleEnv (server p)). }
  destruct (error_message_sent_unescaped exampleEnv [Listening]
              [OpenFulfilled]
              {| message := Some "<b>down</b>"; response := None |}
              "<b>down</b>" p p' tr tr' eq_refl ltac:(done) Hrun Hstep)
    as (body & Hbody & _ & Hcontains).
  by exists p, tr, p', tr', body.
Defined.



(** ** Listen, then query, then open *)

Lemma settlement_trace (env : Environment) (p p' : Process) (i : Input)
    (tr : list Effect) :
  isSettlement i = true → step env p i = Some (p', tr) →
  ∃ e, isConsole e = true ∧ tr = [e; OpenBrowser (baseUrl env)].
Proof.
  unfold step. destruct p as [s ph].
  destruct ph, i as [|r|e| |err|]; cbn [dispatch phase server]; try done.
  - intros _. destruct r; intros [= _ <-]; (eexists; split; [|reflexivity]; reflexivity).
  - intros _. unfold onQueryRejected.
    destruct (isRateLimited e); intros [= _ <-]; (eexists; split; [|reflexivity]; reflexivity).
Qed.

Lemma listening_trace (env : Environment) (p1 : Process) (i : Input)
    (tr : list Effect) :
  step env boot i = Some (p1, tr) → phase p1 = QueryPending →
  ∃ w q,
    forallb isConsole w = true
    ∧ tr = ConsoleLog ("Server running on " +:+ baseUrl env)
           :: w ++ [ConsoleLog "Performing initial job search..."; Query q].
Proof.
  unfold step. destruct i; cbn [boot dispatch phase server]; try done.
  unfold onListening.
  pose proof (getEffectiveQueryOptions_console (argv env)) as Hc.
  destruct (getEffectiveQueryOptions (argv env)) as [w q|w code];
    intros [= <- <-]; [|done].
  intros _. by exists w, q.
Qed.

Lemma launchedUrls_cons_log (text : string) (tr : list Effect) :
  launchedUrls (ConsoleLog text :: tr) = launchedUrls tr.
Proof. reflexivity. Qed.

Lemma launchedUrls_elem (tr : list Effect) (url : string) :
  OpenBrowser url ∈ tr → url ∈ launchedUrls tr.
Proof.
  intros H. unfold launchedUrls. apply list_elem_of_omap.
  by exists (OpenBrowser url).
Qed.

(** X16. The order of the startup: whenever the browser has been
    launched, the trace of the process starts with the line that announces
    the server, holds the one query after it, and the one launch, at the
    base URL, after the query. *)
Theorem listen_query_open_order (env : Environment) (inputs : list Input)
    (p : Process) (tr : list Effect) (url : string) :
  run env boot inputs = Some (p, tr) → OpenBrowser url ∈ tr →
  url = baseUrl env
  ∧ ∃ a q b c,
      tr = ConsoleLog ("Server running on " +:+ baseUrl env)
           :: a ++ Query q :: b ++ OpenBrowser (baseUrl env) :: c
      ∧ queriesOf (a ++ b ++ c) = [] ∧ launchedUrls (a ++ b ++ c) = [].
Proof.
  intros Hrun Hin. apply launchedUrls_elem in Hin.
  destruct (existsb isSettlement inputs) eqn:E.
  2:{ destruct (run_boot_unsettled _ _ _ _ Hrun E) as [_ Hl].
      rewrite Hl in Hin. by apply elem_of_nil in Hin. }
  destruct (first_settlement _ E) as (pre & i & post & -> & Hi).
  pose proof (run_boot_split _ _ _ _ _ _ Hrun Hi)
    as (p2' & u1 & u2 & u3 & _ & _ & _ & _ & _ & Hpre & Hpost & _).
  apply run_app_Some in Hrun as (p1 & t1 & t23 & Hrun1 & Hrun & ->).
  apply run_cons_Some in Hrun as (p2 & t2 & t3 & Hstep & Hrun3 & ->).
  destruct (settlement_trace _ _ _ _ _ Hi Hstep) as (e & He & ->).
  pose proof (step_cases _ _ _ _ _ Hstep) as Hc. rewrite Hi in Hc.
  destruct Hc as (Hph1 & Hph2 & _).
  destruct (run_quiet _ _ _ _ _ Hpost Hrun3) as (_ & Hl3 & _).
  assert (queriesOf t3 = []) as Hq3
      by (eapply run_queries; [|done]; by rewrite Hph2).
  destruct pre as [|i0 pre]; [by injection Hrun1 as <- _ |].
  apply run_cons_Some in Hrun1 as (p0 & t0 & t1' & Hs0 & Hrun1 & ->).
  cbn [existsb] in Hpre. apply orb_false_iff in Hpre as [_ Hpre].
  destruct (run_quiet _ _ _ _ _ Hpre Hrun1) as (_ & Hl1 & Hearly).
  assert (phase p0 = QueryPending) as Hph0.
  { rewrite Hph1 in Hearly. specialize (Hearly eq_refl).
    unfold step in Hs0. cbn [boot phase dispatch] in Hs0.
    destruct i0; try done. cbn [boot server] in Hs0.
    destruct (onListening env initialServer); injection Hs0 as <- _; done. }
  destruct (listening_trace _ _ _ _ Hs0 Hph0) as (w & q & Hw & ->).
  assert (queriesOf t1' = []) as Hq1
      by (eapply run_queries; [|done]; by rewrite Hph0).
  assert (launchedUrls [e] = [] ∧ queriesOf [e] = []) as [Hle Hqe]
      by (by destruct e).
  assert (url = baseUrl env) as ->.
  { change [e; OpenBrowser (baseUrl env)]
      with ([e] ++ [OpenBrowser (baseUrl env)]) in Hin.
    rewrite !launchedUrls_app, Hl1, Hl3, Hle in Hin.
    rewrite launchedUrls_cons_log, launchedUrls_app,
      (launchedUrls_console w Hw) in Hin.
    cbn in Hin. by apply list_elem_of_singleton in Hin. }
  split; [done |].
  exists (w ++ [ConsoleLog "Performing initial job search..."]), q,
    (t1' ++ [e]), t3.
  split_and!.
  - cbn [app]. f_equal. rewrite <- !(assoc_L (++)). cbn [app]. done.
  - rewrite !queriesOf_app, (queriesOf_console w Hw), Hq1, Hqe, Hq3. done.
  - rewrite !launchedUrls_app, (launchedUrls_console w Hw), Hl1, Hle, Hl3.
    done.
Qed.

Lemma listen_query_open_order_witness :
  ∃ p tr,
    run exampleEnv boot
      [Listening; QueryFulfilled (RespArray []); OpenRejected "ENOENT"]
    = Some (p, tr)
    ∧ ∃ a q b c,
        tr = ConsoleLog ("Server running on " +:+ baseUrl exampleEnv)
             :: a ++ Query q :: b ++ OpenBrowser (baseUrl exampleEnv) :: c.
Proof.
  destruct (taken_Some
              (run exampleEnv boot
                 [Listening; QueryFulfilled (RespArray []);
                  OpenRejected "ENOENT"])
              ltac:(vm_compute; reflexivity)) as (p & tr & Hrun).
  exists p, tr. split; [done |].
  destruct (listen_query_open_order exampleEnv _ p tr (baseUrl exampleEnv)
              Hrun) as (_ & a & q & b & c & Htr & _).
  - apply run_cons_Some in Hrun as (p1 & t1 & t2 & _ & Hrun & ->).
    apply run_cons_Some in Hrun as (p2 & u1 & u2 & Hs & _ & ->).
    destruct (settlement_trace exampleEnv p1 p2
                (QueryFulfilled (RespArray [])) u1 eq_refl Hs) as (e & _ & ->).
    apply elem_of_app. right. apply elem_of_app. left.
    apply elem_of_cons. right. apply elem_of_cons. by left.
  - by exists a, q, b, c.
Defined.

(** ** The page is a frame around the rows *)


(** ** The CSV export *)

Section CsvFacts.

Lemma endsLine_endsField (rest : string) : endsLine rest → endsField rest.
Proof. destruct rest; [done |]. intros ->. by right. Qed.

Lemma append_snoc (a : string) (c : ascii) (b : string) :
  (a +:+ String c EmptyString) +:+ b = a +:+ String c b.
Proof. by rewrite append_assoc. Qed.

Lemma includesChar_false (c a : ascii) (s : string) :
  includesChar c (String a s) = false → a ≠ c ∧ includesChar c s = false.
Proof.
  cbn [includesChar]. intros [H1 H2]%orb_false_elim. split; [|done].
  by destruct (Ascii.eqb_spec a c).
Qed.

Lemma plainText_cons (a : ascii) (s : string) :
  plainText (String a s) = true →
  (a ≠ ","%char ∧ a ≠ Ascii.ascii_of_nat 34 ∧ a ≠ LF) ∧ plainText s = true.
Proof.
  unfold plainText. rewrite !negb_true_iff.
  intros [[[H1 H2]%orb_false_elim H3]%orb_false_elim H4]%orb_false_elim.
  apply includesChar_false in H1 as [? H1], H2 as [? H2], H3 as [? H3],
    H4 as [? H4].
  by rewrite H1, H2, H3, H4.
Qed.

Lemma readCsvFrom_plain (t : string) :
  plainText t = true →
  ∀ field fields rest,
    readCsvFrom Plain field fields (t +:+ rest)
    = readCsvFrom Plain (field +:+ t) fields rest.
Proof.
  induction t as [|c t IH]; intros Ht field fields rest.
  { by rewrite append_empty_r. }
  apply plainText_cons in Ht as [(Hc1 & Hc2 & Hc3) Ht].
  rewrite append_cons. cbn [readCsvFrom].
  destruct (Ascii.eqb_spec c ","); [done |].
  destruct (Ascii.eqb_spec c LF); [done |].
  destruct (Ascii.eqb_spec c (Ascii.ascii_of_nat 34)); [done |].
  by rewrite IH, append_snoc.
Qed.

Lemma readCsvFrom_quoted (t : string) :
  ∀ field fields rest,
    readCsvFrom Quoted field fields
      (JS.replaceAll (Ascii.ascii_of_nat 34) (JS.dq +:+ JS.dq) t
       +:+ String (Ascii.ascii_of_nat 34) rest)
    = readCsvFrom QuoteSeen (field +:+ t) fields rest.
Proof.
  induction t as [|c t IH]; intros field fields rest.
  { rewrite append_empty_r. cbn [JS.replaceAll]. rewrite append_nil_l.
    cbn [readCsvFrom]. by rewrite Ascii.eqb_refl. }
  cbn [JS.replaceAll].
  destruct (Ascii.eqb_spec c (Ascii.ascii_of_nat 34)) as [->|Hc].
  - unfold JS.dq. rewrite !append_cons, !append_nil_l, !append_cons.
    cbn [readCsvFrom]. rewrite Ascii.eqb_refl.
    by rewrite IH, append_snoc.
  - rewrite append_cons. cbn [readCsvFrom].
    destruct (Ascii.eqb_spec c (Ascii.ascii_of_nat 34)); [done |].
    by rewrite IH, append_snoc.
Qed.

Lemma readCsvFrom_QuoteSeen (field : string) (fields : list string)
    (rest : string) :
  endsField rest →
  readCsvFrom QuoteSeen field fields rest
  = readCsvFrom Plain field fields rest.
Proof.
  destruct rest as [|c rest]; [done |].
  by intros [->| ->].
Qed.

Lemma replaceAll_absent (c : ascii) (by_ s : string) :
  includesChar c s = false → JS.replaceAll c by_ s = s.
Proof.
  induction s as [|a s IH]; [done |].
  intros [Ha Hs]%includesChar_false. cbn [JS.replaceAll].
  destruct (Ascii.eqb_spec a c); [done |]. by rewrite IH.
Qed.

Lemma includesChar_doubled (s : string) :
  includesChar (Ascii.ascii_of_nat 34)
    (JS.replaceAll (Ascii.ascii_of_nat 34) (JS.dq +:+ JS.dq) s)
  = includesChar (Ascii.ascii_of_nat 34) s.
Proof.
  induction s as [|a s IH]; [done |].
  cbn [JS.replaceAll includesChar].
  destruct (Ascii.eqb_spec a (Ascii.ascii_of_nat 34)) as [->|Ha].
  - unfold JS.dq. rewrite !append_cons, !append_nil_l, !append_cons.
    cbn [includesChar]. by rewrite Ascii.eqb_refl.
  - cbn [includesChar]. rewrite IH.
    by destruct (Ascii.eqb_spec a (Ascii.ascii_of_nat 34)).
Qed.

(** One exported text is read as the cell's text, whatever it holds. *)
Lemma readCsvFrom_csvText (t : string) (fields : list string)
    (rest : string) :
  endsField rest →
  readCsvFrom Plain EmptyString fields (csvText t +:+ rest)
  = readCsvFrom Plain t fields rest.
Proof.
  intros Hrest. unfold csvText.
  set (text := JS.replaceAll _ _ t).
  destruct (includesChar "," text || includesChar (Ascii.ascii_of_nat 34) text
            || includesChar LF text || includesChar CR text) eqn:Hq.
  - unfold JS.quoted, JS.dq.
    rewrite !append_cons, !append_nil_l, append_assoc, append_cons,
      append_nil_l.
    cbn [readCsvFrom]. replace (Ascii.eqb (Ascii.ascii_of_nat 34) ",") with false
      by (by vm_compute).
    replace (Ascii.eqb (Ascii.ascii_of_nat 34) LF) with false
      by (by vm_compute).
    rewrite Ascii.eqb_refl. subst text.
    rewrite readCsvFrom_quoted, append_nil_l.
    by apply readCsvFrom_QuoteSeen.
  - assert (Hdq : includesChar (Ascii.ascii_of_nat 34) t = false).
    { rewrite <- includesChar_doubled. fold text.
      apply orb_false_elim in Hq as [Hq _].
      apply orb_false_elim in Hq as [Hq _].
      by apply orb_false_elim in Hq as [_ Hq]. }
    assert (Ht : text = t) by (by apply replaceAll_absent).
    rewrite Ht in *.
    rewrite readCsvFrom_plain, append_nil_l; [done |].
    unfold plainText. by rewrite Hq.
Qed.

Lemma readCsvFrom_csvCell (index : nat) (td : Cell) (fields : list string)
    (rest : string) :
  (index = 5 → plainText (cellValue 5 td) = true) →
  endsField rest →
  readCsvFrom Plain EmptyString fields (csvCell index td +:+ rest)
  = readCsvFrom Plain (cellValue index td) fields rest.
Proof.
  intros Hlink Hrest. unfold csvCell, cellValue in *.
  destruct (Nat.eqb_spec index 5) as [->|Hi].
  - rewrite readCsvFrom_plain, append_nil_l; [done |]. by apply Hlink.
  - by apply readCsvFrom_csvText.
Qed.

Lemma readCsvFrom_end (value : string) (fields : list string)
    (rest : string) :
  endsLine rest →
  readCsvFrom Plain value fields rest = finish (fields ++ [value]) rest.
Proof. destruct rest as [|c rest]; [done |]. by intros ->. Qed.

Lemma join_cons (sep x y : string) (l : list string) :
  JS.join sep (x :: y :: l) = x +:+ sep +:+ JS.join sep (y :: l).
Proof. reflexivity. Qed.

Lemma readCsvFrom_line (written values : list string) :
  Forall2 readsAs written values → written ≠ [] →
  ∀ fields rest, endsLine rest →
    readCsvFrom Plain EmptyString fields (JS.join "," written +:+ rest)
    = finish (fields ++ values) rest.
Proof.
  induction 1 as [|w v ws vs Hw Hws IH]; [done |]. intros _ fields rest Hrest.
  destruct Hws as [|w' v' ws vs Hw' Hws].
  - change (JS.join "," [w]) with w.
    rewrite Hw by (by apply endsLine_endsField).
    by apply readCsvFrom_end.
  - rewrite join_cons, !append_assoc, append_cons, append_nil_l.
    rewrite Hw by (by left). cbn [readCsvFrom].
    replace (Ascii.eqb "," ",") with true by (by vm_compute).
    rewrite IH by done. by rewrite <- app_assoc.
Qed.

Lemma readCsvFrom_lines (lines : list string)
    (records : list (list string)) :
  Forall2 (λ line record, ∀ rest, endsLine rest →
             readCsvFrom Plain EmptyString [] (line +:+ rest)
             = finish record rest) lines records →
  lines ≠ [] →
  readCsvFrom Plain EmptyString [] (JS.join (String LF EmptyString) lines)
  = records.
Proof.
  induction 1 as [|l r ls rs Hl Hls IH]; [done |]. intros _.
  destruct Hls as [|l' r' ls rs Hl' Hls].
  - change (JS.join _ [l]) with l.
    rewrite <- (append_empty_r l). by rewrite Hl.
  - rewrite join_cons, append_cons, append_nil_l.
    rewrite Hl by done. cbn [finish]. by rewrite IH.
Qed.

Lemma Forall2_imap_same {A B C : Type} (P : B → C → Prop)
    (f : nat → A → B) (g : nat → A → C) (l : list A) :
  (∀ i x, l !! i = Some x → P (f i x) (g i x)) →
  Forall2 P (imap f l) (imap g l).
Proof.
  revert f g. induction l as [|x l IH]; intros f g H; [constructor |].
  rewrite !imap_cons. constructor; [by apply (H 0) |].
  apply IH. intros i y Hi. by apply (H (S i)).
Qed.

Lemma readsAs_plain (t : string) : plainText t = true → readsAs t t.
Proof.
  intros Ht fields rest _. by rewrite readCsvFrom_plain, append_nil_l.
Qed.

Lemma csvRow_readsAs (row : list Cell) :
  plainLink row = true →
  Forall2 readsAs (imap csvCell row) (imap cellValue row).
Proof.
  intros Hrow. apply Forall2_imap_same. intros i td Hi fields rest Hrest.
  apply readCsvFrom_csvCell; [|done].
  intros ->. unfold plainLink in Hrow. by rewrite Hi in Hrow.
Qed.

End CsvFacts.

(** X18. The CSV text the page exports reads back as the table: when the
    header texts and the link addresses hold no comma, quote or line
    break and no row is empty, a CSV reader gets the header texts and,
    for each row, the texts of its cells with the link's address in the
    sixth place, whatever the texts of the cells hold. *)
Theorem export_reads_back (headers : list string) (rows : list (list Cell)) :
  headers ≠ [] →
  Forall (λ h, plainText h = true) headers →
  Forall (λ row, row ≠ [] ∧ plainLink row = true) rows →
  readCsv (exportCsv headers rows) = headers :: map (imap cellValue) rows.
Proof.
  intros Hne Hheaders Hrows. unfold readCsv, exportCsv.
  apply readCsvFrom_lines; [|done].
  constructor.
  - intros rest Hrest.
    rewrite (readCsvFrom_line headers headers); [done | | done | done].
    clear Hne. induction Hheaders; constructor; [by apply readsAs_plain | done].
  - induction Hrows as [|row rows [Hrow Hlink] _ IH]; [constructor |].
    cbn [map]. constructor; [|done]. intros rest Hrest. unfold csvRow.
    rewrite (readCsvFrom_line _ (imap cellValue row));
      [done | by apply csvRow_readsAs | | done].
    by destruct row.
Qed.

Lemma export_reads_back_witness :
  readCsv (exportCsv exampleHeaders [exampleRow])
  = exampleHeaders :: map (imap cellValue) [exampleRow].
Proof.
  apply (export_reads_back exampleHeaders [exampleRow]).
  - done.
  - repeat constructor.
  - repeat constructor; done.
Defined.
